(** * Oscil: a wavetable oscillator (Oscil.h)

    A shallow embedding of the class template
    [Oscil<NUM_TABLE_CELLS, UPDATE_RATE>] and the properties of its phase
    engine, its frequency conversions and its table indexing.

    The class is written for the AVR controllers (it includes
    [util/atomic.h] and reads its table from program memory), so the
    integer types have the widths of avr-gcc:
      - [unsigned int]  : 16 bits, values in [0, 2^16);
      - [unsigned long] : 32 bits, values in [0, 2^32);
      - [long]          : 32 bits, two's complement;
      - [char]          : 8 bits, signed.
    Integers are modelled in [Z], every wrap-around is written out. *)

From Stdlib Require Import ZArith List Lia Bool.
Import ListNotations.
Local Open Scope Z_scope.

(** ** Machine integers *)

Module Avr.

(** Value of an [unsigned int] expression. *)
Definition u16 (x : Z) : Z := x mod 2 ^ 16.

(** Value of an [unsigned long] expression. *)
Definition u32 (x : Z) : Z := x mod 2 ^ 32.

(** Value of a [long] expression, as the 32-bit multiply and add routines
    leave it: the two's complement reading of the low 32 bits. *)
Definition s32 (x : Z) : Z := (x + 2 ^ 31) mod 2 ^ 32 - 2 ^ 31.

(** [(char) b] for a byte [b] in [0, 256). *)
Definition to_char (b : Z) : Z := if b <? 128 then b else b - 256.

(** [a << k] on [unsigned long]. *)
Definition shl32 (a k : Z) : Z := u32 (Z.shiftl a k).

(** [a / b] on [unsigned long]; a zero divisor has no defined result. *)
Definition udiv (a b : Z) : option Z :=
  if b =? 0 then None else Some (a / b).

(** Modelled from the spec: [pgm_read_byte_near] is avr-libc's accessor
    for read-only program storage, it is not part of Oscil.h.  The
    wavetable is the sequence of bytes stored from the address [table]
    on; reading [table + i] gives the [i]-th byte, and a read that leaves
    the table has no defined result. *)
Definition pgm_read_byte_near (table : list Z) (i : Z) : option Z :=
  if i <? 0 then None else nth_error table (Z.to_nat i).

End Avr.
Import Avr.

(** ** The oscillator state and its monad *)

(** The three data members of the class. *)
Record Oscil : Type := mkOscil {
  phase_fractional : Z;            (* unsigned long *)
  phase_increment_fractional : Z;  (* volatile unsigned long *)
  table : list Z                   (* prog_char * *)
}.

Definition set_phase (p : Z) (o : Oscil) : Oscil :=
  mkOscil p (phase_increment_fractional o) (table o).

Definition set_phase_increment (i : Z) (o : Oscil) : Oscil :=
  mkOscil (phase_fractional o) i (table o).

(** A member function is a computation on the object that may have no
    defined result ([None]). *)
Definition M (A : Type) : Type := Oscil -> option (A * Oscil).

Definition ret {A} (a : A) : M A := fun o => Some (a, o).

Definition bind {A B} (m : M A) (f : A -> M B) : M B :=
  fun o => match m o with
           | Some (a, o') => f a o'
           | None => None
           end.

Definition get : M Oscil := fun o => Some (o, o).

Definition modify (f : Oscil -> Oscil) : M unit := fun o => Some (tt, f o).

Definition lift {A} (x : option A) : M A :=
  fun o => match x with Some a => Some (a, o) | None => None end.

Declare Scope oscil_scope.
Delimit Scope oscil_scope with oscil.
Notation "x <- m ;; k" := (bind m (fun x => k))
  (at level 61, m at next level, right associativity) : oscil_scope.
Notation "m ;; k" := (bind m (fun _ => k))
  (at level 61, right associativity) : oscil_scope.
Local Open Scope oscil_scope.

(** ** The class *)

Definition F_BITS : Z := 16.
Definition F_BITS_AS_MULTIPLIER : Z := 65536.
Definition PHMOD_BITS : Z := 16.

Section OscilClass.

(** The template parameters, both [unsigned int]. *)
Variable NUM_TABLE_CELLS : Z.
Variable UPDATE_RATE : Z.

(** [phase_fractional += phase_increment_fractional;] *)
Definition incrementPhase : M unit :=
  modify (fun o =>
    set_phase (u32 (phase_fractional o + phase_increment_fractional o)) o).

(** [(char)pgm_read_byte_near(table +
      ((phase_fractional >> F_BITS) & (NUM_TABLE_CELLS - 1)))] *)
Definition readTable : M Z :=
  o <- get ;;
  b <- lift (pgm_read_byte_near (table o)
               (Z.land (Z.shiftr (phase_fractional o) F_BITS)
                       (u16 (NUM_TABLE_CELLS - 1)))) ;;
  ret (to_char b).

(** [incrementPhase(); return readTable();] *)
Definition next : M Z :=
  incrementPhase ;; readTable.

(** [phmod_proportion * NUM_TABLE_CELLS] is a product of [long]s, which
    the sum with the [unsigned long] phase converts to [unsigned long].  The
    product is taken as the 32-bit multiply of the target computes it, its
    low 32 bits; within the documented range of the argument, the fractional
    part of a Q15n16 number, it does not leave the range of [long]. *)
Definition phMod (phmod_proportion : Z) : M Z :=
  incrementPhase ;;
  o <- get ;;
  b <- lift (pgm_read_byte_near (table o)
               (Z.land
                  (Z.shiftr
                     (u32 (phase_fractional o
                           + u32 (s32 (phmod_proportion * NUM_TABLE_CELLS))))
                     F_BITS)
                  (u16 (NUM_TABLE_CELLS - 1)))) ;;
  ret (to_char b).

(** The [ATOMIC_BLOCK] around each assignment of the increment masks the
    interrupts while its body runs; in this sequential model it is its
    body. *)
Definition setFreq_n8 (frequency : Z) : M unit :=
  q <- lift (udiv (u32 (frequency * NUM_TABLE_CELLS)) UPDATE_RATE) ;;
  modify (set_phase_increment (shl32 q (F_BITS - 8))).

(** The overload for [unsigned int].  The overload for [float] computes the
    increment in floating point and has no counterpart here. *)
Definition setFreq (frequency : Z) : M unit :=
  q <- lift (udiv (u32 (frequency * NUM_TABLE_CELLS)) UPDATE_RATE) ;;
  modify (set_phase_increment (shl32 q F_BITS)).

(** The index is an [unsigned int], and so is the mask. *)
Definition atIndex (index : Z) : M Z :=
  o <- get ;;
  b <- lift (pgm_read_byte_near (table o)
               (Z.land index (u16 (NUM_TABLE_CELLS - 1)))) ;;
  ret (to_char b).

(** A [const]-like member: it touches no data member. *)
Definition phaseIncFromFreq (frequency : Z) : option Z :=
  match udiv (u32 (frequency * NUM_TABLE_CELLS)) UPDATE_RATE with
  | Some q => Some (shl32 q F_BITS)
  | None => None
  end.

Definition setPhaseInc (phaseinc_fractional : Z) : M unit :=
  modify (set_phase_increment phaseinc_fractional).

(** [n] successive calls of [next()], with the samples they return. *)
Fixpoint next_n (n : nat) : M (list Z) :=
  match n with
  | O => ret []
  | S n' => c <- next ;; cs <- next_n n' ;; ret (c :: cs)
  end.

End OscilClass.

(** ** Preconditions of the class *)

(** The table length is a power of two that an [unsigned int] holds. *)
Definition pow2_cells (N : Z) : Prop := exists k, 0 <= k < 16 /\ N = 2 ^ k.

(** The decidable form of [pow2_cells]. *)
Definition pow2_cellsb (N : Z) : bool :=
  (0 <? N) && (N <? 2 ^ 16) && (Z.land N (N - 1) =? 0).

(** The object is bound to a table of [N] bytes. *)
Definition bound_to (N : Z) (o : Oscil) : Prop :=
  Z.of_nat (length (table o)) = N.

(** The data members hold values of their type. *)
Definition in_range (o : Oscil) : Prop :=
  0 <= phase_fractional o < 2 ^ 32 /\
  0 <= phase_increment_fractional o < 2 ^ 32.

(** The table entry at index [i], as the class returns it: the byte read
    from program memory, cast to [char]. *)
Definition table_entry (o : Oscil) (i : Z) : option Z :=
  option_map to_char (pgm_read_byte_near (table o) i).

(** The phase that [incrementPhase] leaves in [o]. *)
Definition advanced (o : Oscil) : Z :=
  u32 (phase_fractional o + phase_increment_fractional o).

(** What a call answers, and the phase it leaves. *)
Definition sample_of {A} (r : option (A * Oscil)) : option A :=
  option_map fst r.

Definition phase_of {A} (r : option (A * Oscil)) : option Z :=
  option_map (fun x => phase_fractional (snd x)) r.

(** The scenario of the eight-cell table. *)
Definition ramp8 : Oscil := mkOscil 0 (Z.shiftl 1 16) [0; 1; 2; 3; 4; 5; 6; 7].

(** An oscillator at rest on a table of 256 cells. *)
Definition rest256 : Oscil := mkOscil 0 0 (repeat 0 256).

(** An oscillator in the middle of a wave on a table of 256 cells. *)
Definition busy256 : Oscil := mkOscil 70000 777 (repeat 0 256).

(** The phase after [setFreq(f)] and then [n] calls of [next()]. *)
Definition phase_after_setFreq (N R f : Z) (n : nat) (o : Oscil) : option Z :=
  phase_of ((setFreq N R f ;; next_n N n) o).

(** ** Runs of calls *)

(** The table cell that the phase [p] stands on: the index expression of
    [readTable]. *)
Definition cell_of (N p : Z) : Z :=
  Z.land (Z.shiftr p F_BITS) (u16 (N - 1)).

(** The calls a sketch makes on an oscillator. *)
Inductive call : Type :=
| Next
| PhMod (phmod_proportion : Z)
| AtIndex (index : Z)
| SetFreq_n8 (frequency : Z)
| SetFreq (frequency : Z)
| SetPhaseInc (phaseinc_fractional : Z).

(** What a call answers: a sample, or nothing when it is a setter. *)
Definition do_call (N R : Z) (c : call) : M (option Z) :=
  match c with
  | Next => s <- next N ;; ret (Some s)
  | PhMod m => s <- phMod N m ;; ret (Some s)
  | AtIndex i => s <- atIndex N i ;; ret (Some s)
  | SetFreq_n8 f => setFreq_n8 N R f ;; ret None
  | SetFreq f => setFreq N R f ;; ret None
  | SetPhaseInc i => setPhaseInc i ;; ret None
  end.

(** The calls of a list, one after the other. *)
Fixpoint run (N R : Z) (cs : list call) : M (list (option Z)) :=
  match cs with
  | [] => ret []
  | c :: cs' => a <- do_call N R c ;; r <- run N R cs' ;; ret (a :: r)
  end.

(** The argument of [setPhaseInc] is an [unsigned long]; the arguments of
    the other calls are reduced by the arithmetic of the call. *)
Definition call_in_range (c : call) : Prop :=
  match c with
  | SetPhaseInc i => 0 <= i < 2 ^ 32
  | _ => True
  end.

(** The calls that advance the phase, and the calls that set the
    increment. *)
Definition advances (c : call) : bool :=
  match c with
  | Next | PhMod _ => true
  | _ => false
  end.

Definition sets (c : call) : bool :=
  match c with
  | SetFreq_n8 _ | SetFreq _ | SetPhaseInc _ => true
  | _ => false
  end.

(** A table of [N] bytes with a one in cell [i] and zeros elsewhere. *)
Definition one_hot (N i : Z) : list Z :=
  map (fun j => if Z.of_nat j =? i then 1 else 0) (seq 0 (Z.to_nat N)).

(** The bytes of the table are bytes. *)
Definition table_of_bytes (o : Oscil) : Prop :=
  Forall (fun b => 0 <= b < 256) (table o).

(** ** Arithmetic of the machine integers *)

Lemma u32_range x : 0 <= u32 x < 2 ^ 32.
Proof. unfold u32. apply Z.mod_pos_bound. lia. Qed.

Lemma u32_small x : 0 <= x < 2 ^ 32 -> u32 x = x.
Proof. intros H. unfold u32. now apply Z.mod_small. Qed.

Lemma u32_idem x : u32 (u32 x) = u32 x.
Proof. apply u32_small, u32_range. Qed.

Lemma u32_add_l x y : u32 (u32 x + y) = u32 (x + y).
Proof. unfold u32. now rewrite Z.add_mod_idemp_l by lia. Qed.

Lemma u32_add_r x y : u32 (x + u32 y) = u32 (x + y).
Proof. unfold u32. now rewrite Z.add_mod_idemp_r by lia. Qed.

Lemma u32_mul_r x y : u32 (x * u32 y) = u32 (x * y).
Proof. unfold u32. now rewrite Z.mul_mod_idemp_r by lia. Qed.

Lemma u32_s32 x : u32 (s32 x) = u32 x.
Proof.
  unfold u32, s32.
  rewrite <- Zminus_mod_idemp_l, Z.mod_mod by lia.
  rewrite Zminus_mod_idemp_l. f_equal. lia.
Qed.

Lemma u16_pred N : 0 < N <= 2 ^ 16 -> u16 (N - 1) = N - 1.
Proof. intros H. unfold u16. apply Z.mod_small. lia. Qed.

Lemma pow2_cells_range N : pow2_cells N -> 0 < N < 2 ^ 16.
Proof.
  intros (k & Hk & ->). split.
  - apply Z.pow_pos_nonneg; lia.
  - apply Z.pow_lt_mono_r; lia.
Qed.

Lemma pow2_cellsb_sound N : pow2_cells N -> pow2_cellsb N = true.
Proof.
  intros H. pose proof (pow2_cells_range _ H) as Hr.
  destruct H as (k & Hk & ->). unfold pow2_cellsb.
  replace (2 ^ k - 1) with (Z.ones k) by (rewrite Z.ones_equiv; lia).
  rewrite Z.land_ones, Z.mod_same by lia.
  rewrite !andb_true_iff, !Z.ltb_lt, Z.eqb_eq. lia.
Qed.

Lemma pow2_cellsb_complete N : pow2_cellsb N = true -> pow2_cells N.
Proof.
  unfold pow2_cellsb.
  rewrite !andb_true_iff, !Z.ltb_lt, Z.eqb_eq. intros [[Hpos Hlt] Hland].
  pose proof (Z.log2_spec N Hpos) as [Hlo Hhi].
  pose proof (Z.log2_nonneg N) as Hk.
  exists (Z.log2 N). split.
  - split; [assumption |].
    apply (Z.pow_lt_mono_r_iff 2); lia.
  - destruct (Z.eq_dec N (2 ^ Z.log2 N)) as [E | Hne]; [assumption |].
    exfalso.
    assert (Z.log2 (N - 1) = Z.log2 N) as Elog
      by (apply Z.log2_unique; lia).
    assert (Z.testbit (Z.land N (N - 1)) (Z.log2 N) = true) as Hbit.
    { rewrite Z.land_spec, Z.bit_log2 by assumption.
      rewrite <- Elog. rewrite Z.bit_log2; [reflexivity |].
      assert (0 < 2 ^ Z.log2 N) by (apply Z.pow_pos_nonneg; lia). lia. }
    rewrite Hland, Z.bits_0 in Hbit. discriminate.
Qed.

(** Masking with [NUM_TABLE_CELLS - 1] is the remainder by the table
    length when the length is a power of two. *)
Lemma mask_is_mod N x : pow2_cells N -> Z.land x (u16 (N - 1)) = x mod N.
Proof.
  intros H. pose proof (pow2_cells_range _ H) as Hr.
  rewrite u16_pred by lia.
  destruct H as (k & Hk & ->).
  replace (2 ^ k - 1) with (Z.ones k) by (rewrite Z.ones_equiv; lia).
  apply Z.land_ones. lia.
Qed.

Lemma mask_in_table N x : pow2_cells N -> 0 <= Z.land x (u16 (N - 1)) < N.
Proof.
  intros H. rewrite mask_is_mod by assumption.
  apply Z.mod_pos_bound. now apply pow2_cells_range.
Qed.

(** Bits 16 to 31 of a value survive its reduction to 32 bits. *)
Lemma shr_mask_u32 x m :
  0 <= m < 2 ^ 16 ->
  Z.land (Z.shiftr (u32 x) 16) m = Z.land (Z.shiftr x 16) m.
Proof.
  intros Hm. apply Z.bits_inj'. intros i Hi.
  rewrite !Z.land_spec, !Z.shiftr_spec by assumption.
  destruct (Z.ltb_spec i 16) as [Hlt | Hge].
  - unfold u32. rewrite Z.mod_pow2_bits_low by lia. reflexivity.
  - replace (Z.testbit m i) with false; [now rewrite !andb_false_r |].
    symmetry. destruct (Z.eq_dec m 0) as [-> | Hnz].
    + apply Z.bits_0.
    + apply Z.bits_above_log2; [lia |].
      apply Z.log2_lt_pow2; [lia |].
      apply Z.lt_le_trans with (2 ^ 16); [lia |].
      apply Z.pow_le_mono_r; lia.
Qed.

(** ** Reading the table *)

Lemma read_in_table N o i :
  bound_to N o -> 0 <= i < N ->
  exists b, pgm_read_byte_near (table o) i = Some b.
Proof.
  unfold bound_to, pgm_read_byte_near. intros Hlen Hi.
  destruct (Z.ltb_spec i 0) as [Hneg | _]; [lia |].
  destruct (nth_error (table o) (Z.to_nat i)) as [b |] eqn:E.
  - now exists b.
  - apply nth_error_None in E. lia.
Qed.

Lemma read_outside_table N o i :
  bound_to N o -> ~ 0 <= i < N -> pgm_read_byte_near (table o) i = None.
Proof.
  unfold bound_to, pgm_read_byte_near. intros Hlen Hi.
  destruct (Z.ltb_spec i 0) as [Hneg | Hpos]; [reflexivity |].
  apply nth_error_None. lia.
Qed.

Lemma table_entry_in_table N o i :
  bound_to N o -> 0 <= i < N -> exists c, table_entry o i = Some c.
Proof.
  intros Hb Hi. destruct (read_in_table N o i Hb Hi) as [b E].
  exists (to_char b). unfold table_entry. now rewrite E.
Qed.

(** ** The member functions, unfolded *)

Lemma incrementPhase_eq o :
  incrementPhase o = Some (tt, set_phase (advanced o) o).
Proof. reflexivity. Qed.

Lemma readTable_eq N o :
  readTable N o =
  option_map (fun c => (c, o))
    (table_entry o (Z.land (Z.shiftr (phase_fractional o) F_BITS)
                           (u16 (N - 1)))).
Proof.
  unfold readTable, table_entry, bind, get, lift, ret.
  now destruct (pgm_read_byte_near _ _).
Qed.

Lemma next_eq N o :
  next N o =
  option_map (fun c => (c, set_phase (advanced o) o))
    (table_entry o (Z.land (Z.shiftr (advanced o) F_BITS) (u16 (N - 1)))).
Proof.
  unfold next, bind. rewrite incrementPhase_eq, readTable_eq. reflexivity.
Qed.

Lemma phMod_eq N m o :
  phMod N m o =
  option_map (fun c => (c, set_phase (advanced o) o))
    (table_entry o
       (Z.land (Z.shiftr (u32 (advanced o + u32 (s32 (m * N)))) F_BITS)
               (u16 (N - 1)))).
Proof.
  unfold phMod, table_entry, bind, get, lift, ret.
  rewrite incrementPhase_eq. cbn [table set_phase phase_fractional].
  now destruct (pgm_read_byte_near _ _).
Qed.

Lemma atIndex_eq N i o :
  atIndex N i o =
  option_map (fun c => (c, o)) (table_entry o (Z.land i (u16 (N - 1)))).
Proof.
  unfold atIndex, table_entry, bind, get, lift, ret.
  now destruct (pgm_read_byte_near _ _).
Qed.

(** ** next() *)

(** C1. For every oscillator state, [next()] first adds the phase increment
    to the stored phase, in unsigned 32-bit arithmetic with wrap-around, and
    then answers the table entry at index [(phase >> 16) & (N - 1)], where
    [phase] is the value after the addition. *)
Theorem next_advances_then_reads (N : Z) (o : Oscil) :
  0 < N < 2 ^ 16 ->
  next N o =
  option_map
    (fun c => (c, set_phase
                    (u32 (phase_fractional o + phase_increment_fractional o))
                    o))
    (table_entry o
       (Z.land
          (Z.shiftr (u32 (phase_fractional o + phase_increment_fractional o))
                    16)
          (N - 1))).
Proof.
  intros HN. rewrite next_eq. unfold advanced, F_BITS.
  rewrite u16_pred by lia. reflexivity.
Qed.

Lemma next_advances_then_reads_witness :
  0 < 8 < 2 ^ 16 /\
  next 8 (mkOscil 4294901760 131072 [10; 20; 30; 40; 50; 60; 70; 200]) =
  Some (20, mkOscil 65536 131072 [10; 20; 30; 40; 50; 60; 70; 200]).
Proof.
  split; [lia |].
  rewrite (next_advances_then_reads 8) by lia. reflexivity.
Defined.

(** ** The eight-cell scenario *)

Lemma ramp8_entry i :
  0 <= i < 8 -> table_entry ramp8 i = Some i.
Proof.
  intros Hi.
  assert (i = 0 \/ i = 1 \/ i = 2 \/ i = 3 \/ i = 4 \/ i = 5 \/ i = 6 \/ i = 7)
    as Hcases by lia.
  repeat (destruct Hcases as [-> | Hcases]; [reflexivity |]).
  subst i. reflexivity.
Qed.

Lemma ramp8_step (j : Z) :
  0 <= j ->
  next 8 (set_phase (u32 (j * 65536)) ramp8) =
  Some ((j + 1) mod 8, set_phase (u32 ((j + 1) * 65536)) ramp8).
Proof.
  intros Hj. rewrite next_eq.
  assert (advanced (set_phase (u32 (j * 65536)) ramp8)
          = u32 ((j + 1) * 65536)) as ->.
  { unfold advanced. cbn [set_phase phase_fractional phase_increment_fractional
                          ramp8].
    rewrite u32_add_l. f_equal. change (Z.shiftl 1 16) with 65536. lia. }
  assert (Z.land (Z.shiftr (u32 ((j + 1) * 65536)) F_BITS) (u16 (8 - 1))
          = (j + 1) mod 8) as ->.
  { unfold F_BITS. rewrite shr_mask_u32 by (unfold u16; cbn; lia).
    change (u16 (8 - 1)) with (Z.ones 3).
    rewrite Z.land_ones, Z.shiftr_div_pow2 by lia.
    change (2 ^ 16) with 65536. rewrite Z.div_mul by lia. reflexivity. }
  change (table_entry (set_phase (u32 (j * 65536)) ramp8))
    with (table_entry ramp8).
  rewrite ramp8_entry by (apply Z.mod_pos_bound; lia).
  reflexivity.
Qed.

Lemma ramp8_run (n : nat) : forall j : nat,
  next_n 8 n (set_phase (u32 (Z.of_nat j * 65536)) ramp8) =
  Some (map (fun i => Z.of_nat i mod 8) (seq (S j) n),
        set_phase (u32 (Z.of_nat (j + n) * 65536)) ramp8).
Proof.
  induction n as [| n IH]; intros j.
  - cbn. now rewrite Nat.add_0_r.
  - cbn [next_n]. unfold bind at 1. rewrite ramp8_step by lia.
    replace (Z.of_nat j + 1) with (Z.of_nat (S j)) by lia.
    unfold bind at 1. rewrite IH. unfold ret. cbn [seq map].
    now replace (S j + n)%nat with (j + S n)%nat by lia.
Qed.

(** C2, as the code has it.  With [N = 8], the table [0,1,...,7], the phase
    at [0] and the increment [1 << 16], the [j]-th call of [next()] answers
    [j mod 8], counting the calls from one: the samples are
    [1,2,3,4,5,6,7,0,1,...], each call one table step after the one
    before. *)
Theorem ramp8_samples (n : nat) :
  sample_of (next_n 8 n ramp8) =
  Some (map (fun j => Z.of_nat j mod 8) (seq 1 n)).
Proof.
  change ramp8 with (set_phase (u32 (Z.of_nat 0 * 65536)) ramp8).
  now rewrite ramp8_run.
Qed.

(** C2, as stated, fails: the first call answers the entry [1], not [0], and
    ten calls answer [1,2,3,4,5,6,7,0,1,2]. *)
Lemma ramp8_first_sample_is_not_0 :
  sample_of (next 8 ramp8) = Some 1 /\
  sample_of (next 8 ramp8) <> Some 0 /\
  sample_of (next_n 8 10 ramp8) = Some [1; 2; 3; 4; 5; 6; 7; 0; 1; 2] /\
  sample_of (next_n 8 10 ramp8) <> Some [0; 1; 2; 3; 4; 5; 6; 7; 0; 1].
Proof.
  repeat split; try reflexivity; vm_compute; discriminate.
Qed.

(** ** phMod() *)

Lemma phMod_index N m p :
  0 < N < 2 ^ 16 ->
  Z.land (Z.shiftr (u32 (p + u32 (s32 (m * N)))) F_BITS) (u16 (N - 1)) =
  Z.land (Z.shiftr (p + m * N) 16) (N - 1).
Proof.
  intros HN. unfold F_BITS.
  rewrite u32_s32, u32_add_r, u16_pred by lia.
  apply shr_mask_u32. lia.
Qed.

Lemma phMod_0_next N o : phMod N 0 o = next N o.
Proof.
  rewrite phMod_eq, next_eq.
  replace (u32 (advanced o + u32 (s32 (0 * N)))) with (advanced o);
    [reflexivity |].
  rewrite u32_s32, u32_add_r, Z.mul_0_l, Z.add_0_r.
  unfold advanced. now rewrite u32_idem.
Qed.

(** C3. For every state and every modulation argument [m], [phMod(m)] leaves
    the phase that [next()] leaves, the old phase plus the increment modulo
    [2^32], and answers the table entry at
    [((phase + m * N) >> 16) & (N - 1)] for that phase: the modulation term
    is in the index only.  Whenever both calls answer from the same state
    they leave the same object, and [phMod(0)] is [next()]: same sample,
    same object. *)
Theorem phMod_reads_beside_the_phase (N m : Z) (o : Oscil) :
  0 < N < 2 ^ 16 ->
  phMod N m o =
  option_map
    (fun c => (c, set_phase
                    (u32 (phase_fractional o + phase_increment_fractional o))
                    o))
    (table_entry o
       (Z.land
          (Z.shiftr
             (u32 (phase_fractional o + phase_increment_fractional o) + m * N)
             16)
          (N - 1)))
  /\ (forall c o' c' o'',
        phMod N m o = Some (c, o') -> next N o = Some (c', o'') -> o' = o'')
  /\ phMod N 0 o = next N o.
Proof.
  intros HN. split; [| split].
  - rewrite phMod_eq, phMod_index by assumption. reflexivity.
  - intros c o' c' o''. rewrite phMod_eq, next_eq.
    destruct (table_entry o _); [| discriminate].
    destruct (table_entry o _); [| discriminate].
    cbn. congruence.
  - apply phMod_0_next.
Qed.

Lemma phMod_reads_beside_the_phase_witness :
  0 < 8 < 2 ^ 16 /\
  phMod 8 (-16384) (mkOscil 0 65536 [10; 20; 30; 40; 50; 60; 70; 200]) =
  Some (-56, mkOscil 65536 65536 [10; 20; 30; 40; 50; 60; 70; 200]).
Proof.
  split; [lia |].
  destruct (phMod_reads_beside_the_phase 8 (-16384)
              (mkOscil 0 65536 [10; 20; 30; 40; 50; 60; 70; 200]))
    as [E _]; [lia |].
  rewrite E. reflexivity.
Defined.

(** ** atIndex() *)

Lemma atIndex_period_width N i w :
  pow2_cells N -> 16 <= w ->
  Z.land ((i + N) mod 2 ^ w) (u16 (N - 1)) = Z.land i (u16 (N - 1)).
Proof.
  intros H Hw. rewrite !mask_is_mod by assumption.
  pose proof (pow2_cells_range _ H) as Hr.
  destruct H as (k & Hk & ->).
  rewrite Z.mod_mod_divide.
  - rewrite <- Z.add_mod_idemp_r, Z.mod_same, Z.add_0_r by lia. reflexivity.
  - exists (2 ^ (w - k)). rewrite <- Z.pow_add_r by lia. f_equal. lia.
Qed.

Lemma atIndex_period N i :
  pow2_cells N ->
  Z.land (u16 (i + N)) (u16 (N - 1)) = Z.land i (u16 (N - 1)).
Proof. intros H. apply atIndex_period_width; [assumption | lia]. Qed.

(** C4. [atIndex(i)] answers the table entry at [i & (N - 1)] and leaves the
    object as it was; for every table length [N] that is a power of two and
    every index [i], with [i + N] taken in the 16 bits of the argument,
    [atIndex(i + N)] is [atIndex(i)].  The same holds when the sum is taken
    in any wider unsigned type. *)
Theorem atIndex_pure_and_periodic (N i : Z) (o : Oscil) :
  pow2_cells N ->
  atIndex N i o =
  option_map (fun c => (c, o)) (table_entry o (Z.land i (N - 1)))
  /\ atIndex N (u16 (i + N)) o = atIndex N i o
  /\ (forall w, 16 <= w -> atIndex N ((i + N) mod 2 ^ w) o = atIndex N i o).
Proof.
  intros H. pose proof (pow2_cells_range _ H) as Hr. split; [| split].
  - rewrite atIndex_eq, u16_pred by lia. reflexivity.
  - rewrite !atIndex_eq, atIndex_period by assumption. reflexivity.
  - intros w Hw.
    rewrite !atIndex_eq, atIndex_period_width by assumption. reflexivity.
Qed.

Lemma pow2_cells_8 : pow2_cells 8.
Proof. exists 3. split; [lia | reflexivity]. Defined.

Lemma pow2_cells_256 : pow2_cells 256.
Proof. exists 8. split; [lia | reflexivity]. Defined.

Lemma atIndex_pure_and_periodic_witness :
  pow2_cells 8 /\
  atIndex 8 65535 ramp8 = Some (7, ramp8) /\
  atIndex 8 (u16 (65535 + 8)) ramp8 = atIndex 8 65535 ramp8.
Proof.
  split; [exact pow2_cells_8 |].
  destruct (atIndex_pure_and_periodic 8 65535 ramp8 pow2_cells_8)
    as (E & P & _).
  split; [rewrite E; reflexivity | exact P].
Defined.

(** ** The frequency setters *)

Lemma udiv_pos a R : 0 < R -> udiv a R = Some (a / R).
Proof.
  intros HR. unfold udiv.
  destruct (Z.eqb_spec R 0) as [E | _]; [lia | reflexivity].
Qed.

Lemma setFreq_n8_eq N R freq o :
  0 < R ->
  setFreq_n8 N R freq o =
  Some (tt, set_phase_increment (shl32 (u32 (freq * N) / R) 8) o).
Proof.
  intros HR. unfold setFreq_n8, bind, lift, modify.
  rewrite udiv_pos by assumption. reflexivity.
Qed.

Lemma setFreq_eq N R f o :
  0 < R ->
  setFreq N R f o =
  Some (tt, set_phase_increment (shl32 (u32 (f * N) / R) 16) o).
Proof.
  intros HR. unfold setFreq, bind, lift, modify.
  rewrite udiv_pos by assumption. reflexivity.
Qed.

Lemma phaseIncFromFreq_eq N R f :
  0 < R -> phaseIncFromFreq N R f = Some (shl32 (u32 (f * N) / R) 16).
Proof.
  intros HR. unfold phaseIncFromFreq.
  rewrite udiv_pos by assumption. reflexivity.
Qed.

Lemma shl32_exact q k :
  0 <= k -> 0 <= q -> q * 2 ^ k < 2 ^ 32 -> shl32 q k = q * 2 ^ k.
Proof.
  intros Hk Hq Hlt. unfold shl32.
  rewrite Z.shiftl_mul_pow2 by assumption.
  apply u32_small. split; [| assumption].
  apply Z.mul_nonneg_nonneg; [assumption |]. apply Z.pow_nonneg. lia.
Qed.

(** C5. For every Q24.8 frequency [freq], [setFreq_n8(freq)] sets the phase
    increment to [((freq * N) / R) << 8]: the product is reduced modulo
    [2^32] whatever its size, the quotient is the integer quotient rounded
    down, and the shifted value is stored in the 32 bits of the increment
    (it is the exact [q * 2^8] whenever the quotient [q] is below [2^24]).
    The call returns for every [freq]; the object it leaves holds that
    increment, and the phase and the table it had. *)
Theorem setFreq_n8_increment (N R freq : Z) (o : Oscil) :
  0 < R ->
  exists o',
    setFreq_n8 N R freq o = Some (tt, o')
    /\ phase_increment_fractional o'
       = u32 (Z.shiftl (((freq * N) mod 2 ^ 32) / R) 8)
    /\ phase_fractional o' = phase_fractional o
    /\ table o' = table o
    /\ R * (((freq * N) mod 2 ^ 32) / R) <= (freq * N) mod 2 ^ 32
         < R * (((freq * N) mod 2 ^ 32) / R + 1)
    /\ (((freq * N) mod 2 ^ 32) / R < 2 ^ 24 ->
        phase_increment_fractional o'
        = ((freq * N) mod 2 ^ 32) / R * 2 ^ 8).
Proof.
  intros HR.
  exists (set_phase_increment (shl32 (u32 (freq * N) / R) 8) o).
  split; [now apply setFreq_n8_eq |].
  split; [reflexivity |]. split; [reflexivity |]. split; [reflexivity |].
  split.
  - split.
    + now apply Z.mul_div_le.
    + rewrite Z.add_1_r. now apply Z.mul_succ_div_gt.
  - intros Hq. cbn [set_phase_increment phase_increment_fractional].
    apply (shl32_exact _ 8); [lia | | unfold u32; lia].
    apply Z.div_pos; [| assumption].
    apply Z.mod_pos_bound. lia.
Qed.

Lemma setFreq_n8_increment_witness :
  0 < 16384 /\
  (exists o',
     setFreq_n8 256 16384 384 busy256 = Some (tt, o')
     /\ phase_increment_fractional o' = 1536
     /\ phase_fractional o' = 70000) /\
  (exists o',
     setFreq_n8 256 16384 16777216 busy256 = Some (tt, o')
     /\ phase_increment_fractional o' = 0).
Proof.
  split; [lia |]. split.
  - destruct (setFreq_n8_increment 256 16384 384 busy256)
      as (o' & E & Einc & Ephase & _); [lia |].
    exists o'. split; [exact E |]. split; [exact Einc | exact Ephase].
  - destruct (setFreq_n8_increment 256 16384 16777216 busy256)
      as (o' & E & Einc & _); [lia |].
    exists o'. split; [exact E | exact Einc].
Defined.

(** C6. For every unsigned integer frequency [f], the increment that
    [phaseIncFromFreq(f)] computes, passed to [setPhaseInc], leaves the
    object that [setFreq(f)] leaves: the same phase increment, and so the
    same samples and the same phases in any run of [next()] after it. *)
Theorem phaseInc_then_set_is_setFreq (N R f : Z) (o : Oscil) :
  0 < R ->
  exists inc,
    phaseIncFromFreq N R f = Some inc
    /\ setFreq N R f o = Some (tt, set_phase_increment inc o)
    /\ setPhaseInc inc o = setFreq N R f o
    /\ (inc' <- lift (phaseIncFromFreq N R f) ;; setPhaseInc inc') o
       = setFreq N R f o
    /\ forall n,
         (inc' <- lift (phaseIncFromFreq N R f) ;; setPhaseInc inc' ;;
          next_n N n) o
         = (setFreq N R f ;; next_n N n) o.
Proof.
  intros HR. exists (shl32 (u32 (f * N) / R) 16).
  pose proof (phaseIncFromFreq_eq N R f HR) as Einc.
  pose proof (setFreq_eq N R f o HR) as Eset.
  split; [assumption |]. split; [assumption |].
  split; [now rewrite Eset |].
  split.
  - unfold bind, lift. now rewrite Einc, Eset.
  - intros n. unfold bind, lift. now rewrite Einc, Eset.
Qed.

Lemma phaseInc_then_set_is_setFreq_witness :
  0 < 16384 /\
  phaseIncFromFreq 256 16384 440 = Some 393216 /\
  setPhaseInc 393216 rest256 = setFreq 256 16384 440 rest256.
Proof.
  split; [lia |].
  destruct (phaseInc_then_set_is_setFreq 256 16384 440 rest256)
    as (inc & Einc & _ & Eset & _); [lia |].
  split; [reflexivity |].
  assert (inc = 393216) as <-; [| exact Eset].
  vm_compute in Einc. congruence.
Defined.

(** ** No read leaves the table, every call returns *)

(** C9. When the table length [N] is a power of two and the object is bound
    to a table of [N] bytes, the index that [next()], [phMod(m)] and
    [atIndex(i)] read at lies in [0, N - 1], whatever the phase, the
    increment and the argument are, and each of the three calls has a
    result: it answers a sample and leaves an object.  The setters have a
    result for every argument too, the update rate being positive. *)
Theorem reads_stay_in_table (N R : Z) (o : Oscil) :
  pow2_cells N -> bound_to N o -> 0 < R ->
  (0 <= Z.land (Z.shiftr (advanced o) F_BITS) (u16 (N - 1)) < N
   /\ exists c, next N o = Some (c, set_phase (advanced o) o))
  /\ (forall m,
        0 <= Z.land (Z.shiftr (u32 (advanced o + u32 (s32 (m * N)))) F_BITS)
                    (u16 (N - 1)) < N
        /\ exists c, phMod N m o = Some (c, set_phase (advanced o) o))
  /\ (forall i,
        0 <= Z.land i (u16 (N - 1)) < N
        /\ exists c, atIndex N i o = Some (c, o))
  /\ (forall f, exists o', setFreq_n8 N R f o = Some (tt, o'))
  /\ (forall f, exists o', setFreq N R f o = Some (tt, o'))
  /\ (forall f, exists inc, phaseIncFromFreq N R f = Some inc)
  /\ (forall inc, exists o', setPhaseInc inc o = Some (tt, o')).
Proof.
  intros HN Hb HR.
  assert (forall x, exists c,
             table_entry o (Z.land x (u16 (N - 1))) = Some c) as Hread.
  { intros x. apply (table_entry_in_table N); [assumption |].
    now apply mask_in_table. }
  split; [| split; [| split; [| split; [| split; [| split]]]]].
  - split; [now apply mask_in_table |].
    destruct (Hread (Z.shiftr (advanced o) F_BITS)) as [c E].
    exists c. rewrite next_eq, E. reflexivity.
  - intros m. split; [now apply mask_in_table |].
    destruct (Hread (Z.shiftr (u32 (advanced o + u32 (s32 (m * N)))) F_BITS))
      as [c E].
    exists c. rewrite phMod_eq, E. reflexivity.
  - intros i. split; [now apply mask_in_table |].
    destruct (Hread i) as [c E].
    exists c. rewrite atIndex_eq, E. reflexivity.
  - intros f. eexists. now apply setFreq_n8_eq.
  - intros f. eexists. now apply setFreq_eq.
  - intros f. eexists. now apply phaseIncFromFreq_eq.
  - intros inc. eexists. reflexivity.
Qed.

Lemma reads_stay_in_table_witness :
  (pow2_cells 8 /\ bound_to 8 ramp8 /\ 0 < 16384) /\
  exists c, phMod 8 (-1) ramp8 = Some (c, set_phase (advanced ramp8) ramp8).
Proof.
  split; [split; [exact pow2_cells_8 | split; [reflexivity | lia]] |].
  destruct (reads_stay_in_table 8 16384 ramp8 pow2_cells_8 eq_refl)
    as (_ & Hm & _); [lia |].
  exact (proj2 (Hm (-1))).
Defined.

(** ** The two integer setters on the same frequency *)

Section SameFrequency.

Variables N R f : Z.
Hypothesis f_nonneg : 0 <= f.
Hypothesis N_pos : 0 < N.
Hypothesis R_pos : 0 < R.

(** The quotient of the Q24.8 setter refines the quotient of the integer
    setter by eight more bits. *)
Lemma n8_quotient :
  (f * 2 ^ 8 * N) / R = 2 ^ 8 * (f * N / R) + 2 ^ 8 * ((f * N) mod R) / R.
Proof using R_pos.
  rewrite <- Z.div_add_l by lia. f_equal.
  pose proof (Z.div_mod (f * N) R ltac:(lia)) as E. lia.
Qed.

Lemma n8_fraction : 0 <= 2 ^ 8 * ((f * N) mod R) / R < 2 ^ 8.
Proof using R_pos.
  pose proof (Z.mod_pos_bound (f * N) R R_pos) as Hr. split.
  - apply Z.div_pos; lia.
  - apply Z.div_lt_upper_bound; lia.
Qed.

Lemma quotient_nonneg : 0 <= f * N / R.
Proof using f_nonneg N_pos R_pos. apply Z.div_pos; nia. Qed.

End SameFrequency.

(** C7, for the two integer setters.  For an integer frequency [f] in the
    range where nothing overflows, [setFreq_n8(f << 8)] and [setFreq(f)]
    leave objects whose increments [a] and [b] satisfy [b <= a < b + 2^16]:
    [b] is [(f * N / R) << 16], they differ by what the division of
    [setFreq] drops, [a - b = 2^8 * ((2^8 * (f*N mod R)) / R)], and the
    exact value [f * N * 2^16 / R] lies between them, at or above [a] and
    below [b + 2^16]. *)
Theorem integer_setters_agree (N R f : Z) (o : Oscil) :
  0 <= f < 2 ^ 16 -> 0 < N < 2 ^ 16 -> 0 < R < 2 ^ 16 ->
  f * 2 ^ 8 * N < 2 ^ 32 ->
  f * N / R < 2 ^ 16 ->
  exists o8 oi,
    setFreq_n8 N R (Z.shiftl f 8) o = Some (tt, o8)
    /\ setFreq N R f o = Some (tt, oi)
    /\ phase_increment_fractional oi = f * N / R * 2 ^ 16
    /\ phase_increment_fractional oi <= phase_increment_fractional o8
         < phase_increment_fractional oi + 2 ^ 16
    /\ phase_increment_fractional o8 - phase_increment_fractional oi
       = 2 ^ 8 * (2 ^ 8 * ((f * N) mod R) / R)
    /\ R * phase_increment_fractional o8 <= f * N * 2 ^ 16
         < R * (phase_increment_fractional oi + 2 ^ 16).
Proof.
  intros Hf HN HR Hsafe8 Hsafe.
  pose proof (n8_quotient N R f ltac:(lia)) as Hq8.
  pose proof (n8_fraction N R f ltac:(lia)) as Hfr.
  pose proof (quotient_nonneg N R f ltac:(lia) ltac:(lia) ltac:(lia)) as Hq.
  pose proof (Z.mul_div_le (f * N) R ltac:(lia)) as Hlo.
  pose proof (Z.mul_succ_div_gt (f * N) R ltac:(lia)) as Hhi.
  pose proof (Z.mul_div_le (f * 2 ^ 8 * N) R ltac:(lia)) as Hlo8.
  set (q := f * N / R) in *.
  set (t := 2 ^ 8 * ((f * N) mod R) / R) in *.
  assert (0 <= f * N) as Hx by nia.
  assert (shl32 (u32 (Z.shiftl f 8 * N) / R) 8 = (2 ^ 8 * q + t) * 2 ^ 8)
    as E8.
  { rewrite Z.shiftl_mul_pow2 by lia.
    rewrite (u32_small (f * 2 ^ 8 * N)) by nia.
    rewrite Hq8. now rewrite shl32_exact by lia. }
  assert (shl32 (u32 (f * N) / R) 16 = q * 2 ^ 16) as Ei.
  { rewrite (u32_small (f * N)) by nia.
    fold q. now rewrite shl32_exact by lia. }
  exists (set_phase_increment (shl32 (u32 (Z.shiftl f 8 * N) / R) 8) o),
         (set_phase_increment (shl32 (u32 (f * N) / R) 16) o).
  split; [apply setFreq_n8_eq; lia |].
  split; [apply setFreq_eq; lia |].
  cbn [set_phase_increment phase_increment_fractional].
  rewrite E8, Ei.
  split; [reflexivity |]. split; [lia |]. split; [lia |].
  rewrite <- Hq8. split; [nia |].
  unfold Z.succ in Hhi. nia.
Qed.

Lemma integer_setters_agree_witness :
  (0 <= 440 < 2 ^ 16 /\ 0 < 256 < 2 ^ 16 /\ 0 < 16384 < 2 ^ 16 /\
   440 * 2 ^ 8 * 256 < 2 ^ 32 /\ 440 * 256 / 16384 < 2 ^ 16) /\
  exists o8 oi,
    setFreq_n8 256 16384 (Z.shiftl 440 8) busy256 = Some (tt, o8)
    /\ setFreq 256 16384 440 busy256 = Some (tt, oi)
    /\ phase_increment_fractional oi = 393216
    /\ phase_increment_fractional o8 - phase_increment_fractional oi
       = 57344.
Proof.
  split; [repeat split; try lia; reflexivity |].
  destruct (integer_setters_agree 256 16384 440 busy256)
    as (o8 & oi & E8 & E & Ei & _ & Ediff & _); try lia; try reflexivity.
  exists o8, oi. repeat split; assumption.
Defined.

(** ** The phase after a run of next() *)

Lemma phase_of_bind_ret {A B} (m : M A) (g : A -> B) o :
  phase_of ((x <- m ;; ret (g x)) o) = phase_of (m o).
Proof.
  unfold bind, ret, phase_of. destruct (m o) as [[a o'] |]; reflexivity.
Qed.

Lemma next_total N o :
  pow2_cells N -> bound_to N o ->
  exists c, next N o = Some (c, set_phase (advanced o) o).
Proof.
  intros HN Hb. rewrite next_eq.
  destruct (table_entry_in_table N o
              (Z.land (Z.shiftr (advanced o) F_BITS) (u16 (N - 1))) Hb)
    as [c E]; [now apply mask_in_table |].
  exists c. now rewrite E.
Qed.

Lemma next_n_phase N (n : nat) : forall o,
  pow2_cells N -> bound_to N o -> in_range o ->
  phase_of (next_n N n o) =
  Some (u32 (phase_fractional o + Z.of_nat n * phase_increment_fractional o)).
Proof.
  induction n as [| n IH]; intros o HN Hb Hr.
  - cbn. f_equal. rewrite Z.add_0_r. symmetry. apply u32_small, Hr.
  - cbn [next_n]. destruct (next_total N o HN Hb) as [c E].
    unfold bind at 1. rewrite E.
    rewrite (phase_of_bind_ret (next_n N n) (cons c)).
    rewrite IH; [| assumption | exact Hb | ].
    + cbn [set_phase phase_fractional phase_increment_fractional].
      unfold advanced. rewrite u32_add_l. do 2 f_equal. lia.
    + split; [apply u32_range | apply Hr].
Qed.

Lemma whole_cycle N R f :
  0 < f -> 0 < R -> R mod f = 0 -> (f * N) mod R = 0 ->
  R / f * (f * N / R) = N.
Proof.
  intros Hf HR Hdiv Hexact.
  apply Z.div_exact in Hdiv; [| lia].
  apply Z.div_exact in Hexact; [| lia].
  set (k := R / f) in *. set (q := f * N / R) in *.
  apply (Z.mul_reg_l _ _ f); [lia |].
  rewrite Hexact, Hdiv. ring.
Qed.

(** C8, as the code has it.  From an object bound to its table, the phase
    after [n] calls of [next()] is the old phase plus [n] times the
    increment, modulo [2^32].  When [f] divides [R] and [R] divides [f * N],
    so that the quotient [f * N / R] of [setFreq(f)] is exact, [R / f] calls
    of [next()] after [setFreq(f)] advance the phase by [N << 16] modulo
    [2^32], one table cycle. *)
Theorem phase_after_calls (N R f : Z) (n : nat) (o : Oscil) :
  pow2_cells N -> bound_to N o -> in_range o ->
  phase_of (next_n N n o) =
  Some (u32 (phase_fractional o + Z.of_nat n * phase_increment_fractional o))
  /\ (0 < f < 2 ^ 16 -> 0 < R -> R mod f = 0 -> (f * N) mod R = 0 ->
      phase_after_setFreq N R f (Z.to_nat (R / f)) o =
      Some (u32 (phase_fractional o + Z.shiftl N 16))).
Proof.
  intros HN Hb Hr. split; [now apply next_n_phase |].
  intros Hf HR Hdiv Hexact.
  pose proof (pow2_cells_range _ HN) as HNr.
  unfold phase_after_setFreq, bind at 1. rewrite setFreq_eq by assumption.
  rewrite next_n_phase; [| assumption | exact Hb | ].
  - cbn [set_phase_increment phase_fractional phase_increment_fractional].
    rewrite (u32_small (f * N)) by nia.
    unfold shl32. rewrite <- u32_add_r, u32_mul_r, u32_add_r.
    rewrite !Z.shiftl_mul_pow2 by lia.
    rewrite Z2Nat.id by (apply Z.div_pos; lia).
    rewrite Z.mul_assoc, whole_cycle by lia. reflexivity.
  - split; [apply Hr | apply u32_range].
Qed.

Lemma rest256_bound : bound_to 256 rest256.
Proof. reflexivity. Defined.

Lemma rest256_in_range : in_range rest256.
Proof. repeat split; cbn; lia. Defined.

Lemma phase_after_calls_witness :
  (pow2_cells 256 /\ bound_to 256 rest256 /\ in_range rest256) /\
  (0 < 256 < 2 ^ 16 /\ 0 < 16384 /\ 16384 mod 256 = 0 /\
   (256 * 256) mod 16384 = 0) /\
  phase_after_setFreq 256 16384 256 (Z.to_nat (16384 / 256)) rest256 =
  Some (u32 (phase_fractional rest256 + Z.shiftl 256 16)).
Proof.
  split; [exact (conj pow2_cells_256 (conj rest256_bound rest256_in_range)) |].
  split; [repeat split; lia || reflexivity |].
  destruct (phase_after_calls 256 16384 256 0 rest256
              pow2_cells_256 rest256_bound rest256_in_range) as [_ H].
  apply H; lia || reflexivity.
Defined.

(** C8, as stated, fails: with [N = 256], [R = 16384] and [f = 32], [R / f]
    is the whole number 512, but [setFreq(32)] sets the increment
    [(32 * 256 / 16384) << 16 = 0], and after 512 calls of [next()] the
    phase is where it was, not [256 << 16] further. *)
Lemma low_frequency_makes_no_cycle :
  16384 mod 32 = 0 /\
  setFreq 256 16384 32 rest256 = Some (tt, set_phase_increment 0 rest256) /\
  phase_after_setFreq 256 16384 32 (Z.to_nat (16384 / 32)) rest256 = Some 0 /\
  phase_after_setFreq 256 16384 32 (Z.to_nat (16384 / 32)) rest256 <>
  Some (u32 (phase_fractional rest256 + Z.shiftl 256 16)).
Proof.
  split; [reflexivity |]. split; [reflexivity |].
  split; [vm_compute; reflexivity |].
  vm_compute. discriminate.
Qed.

(** ** The stream of samples *)

Lemma cell_of_mod N p : pow2_cells N -> cell_of N p = (p / 2 ^ 16) mod N.
Proof.
  intros H. unfold cell_of, F_BITS.
  rewrite mask_is_mod, Z.shiftr_div_pow2 by (assumption || lia). reflexivity.
Qed.

Lemma cell_of_u32 N p : cell_of N (u32 p) = cell_of N p.
Proof.
  unfold cell_of, F_BITS. apply shr_mask_u32.
  unfold u16. apply Z.mod_pos_bound. lia.
Qed.

(** A phase and the same phase whole table lengths further stand on the same
    cell. *)
Lemma cell_of_cycle N p t :
  pow2_cells N -> cell_of N (p + t * (N * 2 ^ 16)) = cell_of N p.
Proof.
  intros H. pose proof (pow2_cells_range _ H) as Hr.
  rewrite !cell_of_mod by assumption.
  replace (p + t * (N * 2 ^ 16)) with (p + t * N * 2 ^ 16) by ring.
  rewrite Z.div_add, Z.mod_add by lia. reflexivity.
Qed.

Lemma next_sample N o :
  sample_of (next N o) = table_entry o (cell_of N (advanced o)).
Proof.
  rewrite next_eq. unfold sample_of, cell_of.
  now destruct (table_entry o _).
Qed.

Lemma phMod_sample N m o :
  sample_of (phMod N m o) =
  table_entry o (cell_of N (phase_fractional o
                            + phase_increment_fractional o + m * N)).
Proof.
  rewrite phMod_eq.
  change (Z.land (Z.shiftr ?x F_BITS) (u16 (N - 1))) with (cell_of N x).
  rewrite cell_of_u32, u32_s32.
  rewrite <- cell_of_u32, u32_add_r. unfold advanced.
  rewrite u32_add_l, cell_of_u32.
  unfold sample_of. now destruct (table_entry o _).
Qed.

Lemma next_n_samples N (n : nat) : forall o,
  pow2_cells N -> bound_to N o ->
  exists cs,
    sample_of (next_n N n o) = Some cs
    /\ length cs = n
    /\ forall j, (j < n)%nat ->
         table_entry o
           (cell_of N (phase_fractional o
                       + (Z.of_nat j + 1) * phase_increment_fractional o))
         = Some (nth j cs 0).
Proof.
  induction n as [| n IH]; intros o HN Hb.
  - exists []. repeat split. intros j Hj. lia.
  - destruct (next_total N o HN Hb) as [c E].
    pose proof (next_sample N o) as Ec. rewrite E in Ec. cbn in Ec.
    destruct (IH (set_phase (advanced o) o) HN Hb) as (cs & Ecs & Hlen & Hnth).
    exists (c :: cs). split; [| split].
    + cbn [next_n]. unfold bind at 1. rewrite E. unfold bind, ret.
      unfold sample_of in Ecs.
      destruct (next_n N n (set_phase (advanced o) o)) as [[cs' o'] |];
        [| discriminate].
      cbn in Ecs. injection Ecs as ->. reflexivity.
    + cbn. now rewrite Hlen.
    + intros [| j] Hj.
      * cbn [nth]. rewrite Ec. f_equal.
        unfold advanced. rewrite cell_of_u32. f_equal. lia.
      * cbn [nth]. rewrite <- (Hnth j) by lia.
        change (table_entry (set_phase (advanced o) o))
          with (table_entry o).
        f_equal.
        cbn [set_phase phase_fractional phase_increment_fractional].
        rewrite <- (cell_of_u32 N (advanced o + _)). unfold advanced.
        rewrite u32_add_l, cell_of_u32. f_equal. lia.
Qed.

(** X1. From an object bound to a table whose length [N] is a power of two,
    [n] calls of [next()] answer [n] samples, and the [j]-th of them,
    counted from one, is the table entry at
    [(((phase + j * increment) mod 2^32) / 2^16) mod N]: the integer part of
    the phase [j] steps further, with no rounding and no interpolation.  The
    wrap of the 32-bit phase does not show: the cell is the one of the
    unbounded sum, [((phase + j * increment) / 2^16) mod N]. *)
Theorem next_n_closed_form (N : Z) (n : nat) (o : Oscil) :
  pow2_cells N -> bound_to N o ->
  exists cs,
    sample_of (next_n N n o) = Some cs
    /\ length cs = n
    /\ forall j, (j < n)%nat ->
         table_entry o
           ((((phase_fractional o
               + (Z.of_nat j + 1) * phase_increment_fractional o)
              mod 2 ^ 32) / 2 ^ 16) mod N)
         = Some (nth j cs 0)
         /\ (((phase_fractional o
                + (Z.of_nat j + 1) * phase_increment_fractional o)
               mod 2 ^ 32) / 2 ^ 16) mod N
            = ((phase_fractional o
                + (Z.of_nat j + 1) * phase_increment_fractional o)
               / 2 ^ 16) mod N.
Proof.
  intros HN Hb.
  destruct (next_n_samples N n o HN Hb) as (cs & E & Hlen & Hnth).
  exists cs. split; [assumption |]. split; [assumption |].
  intros j Hj.
  assert (forall x, ((x mod 2 ^ 32) / 2 ^ 16) mod N = (x / 2 ^ 16) mod N)
    as Hwrap.
  { intros x. rewrite <- !cell_of_mod by assumption. apply cell_of_u32. }
  split; [| apply Hwrap].
  rewrite <- (Hnth j Hj), Hwrap, cell_of_mod by assumption. reflexivity.
Qed.

Lemma next_n_closed_form_witness :
  (pow2_cells 8 /\ bound_to 8 ramp8) /\
  exists cs,
    sample_of (next_n 8 3 (set_phase_increment 98304 ramp8)) = Some cs
    /\ nth 2 cs 0 = 4.
Proof.
  split; [exact (conj pow2_cells_8 eq_refl) |].
  destruct (next_n_closed_form 8 3 (set_phase_increment 98304 ramp8)
              pow2_cells_8 eq_refl) as (cs & E & _ & Hnth).
  exists cs. split; [exact E |].
  destruct (Hnth 2%nat ltac:(lia)) as [Hnth2 _]. clear Hnth.
  rename Hnth2 into Hnth.
  change (Some 4 = Some (nth 2 cs 0)) in Hnth.
  injection Hnth as Hn. symmetry. exact Hn.
Defined.

(** ** Samples and the phase *)

Lemma table_entry_set_phase p o :
  table_entry (set_phase p o) = table_entry o.
Proof. reflexivity. Qed.

Lemma next_sample_cell N o :
  sample_of (next N o) =
  table_entry o
    (cell_of N (phase_fractional o + phase_increment_fractional o)).
Proof. rewrite next_sample. unfold advanced. now rewrite cell_of_u32. Qed.

Lemma phMod_cell N m o :
  cell_of N (u32 (advanced o + u32 (s32 (m * N)))) =
  cell_of N (phase_fractional o + phase_increment_fractional o + m * N).
Proof.
  rewrite cell_of_u32, u32_s32.
  rewrite <- cell_of_u32, u32_add_r. unfold advanced.
  now rewrite u32_add_l, cell_of_u32.
Qed.

Lemma phMod_eq_cell N m o :
  phMod N m o =
  option_map (fun c => (c, set_phase (advanced o) o))
    (table_entry o
       (cell_of N (phase_fractional o + phase_increment_fractional o
                   + m * N))).
Proof.
  rewrite phMod_eq.
  change (Z.land (Z.shiftr ?x F_BITS) (u16 (N - 1))) with (cell_of N x).
  now rewrite phMod_cell.
Qed.

(** X2. From a phase any number of whole table lengths ([N << 16])
    further, reduced to 32 bits, [next()] and [phMod(m)] answer the same
    sample. *)
Theorem samples_periodic_in_phase (N t m : Z) (o : Oscil) :
  pow2_cells N ->
  sample_of
    (next N (set_phase (u32 (phase_fractional o + t * (N * 2 ^ 16))) o))
  = sample_of (next N o)
  /\ sample_of
       (phMod N m (set_phase (u32 (phase_fractional o + t * (N * 2 ^ 16))) o))
     = sample_of (phMod N m o).
Proof.
  intros HN. split.
  - rewrite !next_sample_cell.
    cbn [set_phase phase_fractional phase_increment_fractional].
    rewrite table_entry_set_phase.
    f_equal. rewrite <- cell_of_u32, u32_add_l, cell_of_u32.
    rewrite <- (cell_of_cycle N (phase_fractional o + _) t HN).
    f_equal. ring.
  - rewrite !phMod_sample.
    cbn [set_phase phase_fractional phase_increment_fractional].
    rewrite table_entry_set_phase.
    f_equal. rewrite <- cell_of_u32, <- !Z.add_assoc, u32_add_l, cell_of_u32.
    rewrite <- (cell_of_cycle N (phase_fractional o + _) t HN).
    f_equal. ring.
Qed.

Lemma samples_periodic_in_phase_witness :
  pow2_cells 8 /\
  sample_of (next 8 (set_phase (u32 (0 + 3 * (8 * 2 ^ 16))) ramp8))
  = sample_of (next 8 ramp8).
Proof.
  split; [exact pow2_cells_8 |].
  exact (proj1 (samples_periodic_in_phase 8 3 0 ramp8 pow2_cells_8)).
Defined.

(** X3. [phMod(m)] answers the sample that [next()] would answer from the
    phase [m * N] further, and moves the stored phase by the increment only;
    a modulation of [2^16], one whole table length, or any multiple of it,
    changes nothing: [phMod(m + t * 2^16)] is [phMod(m)]. *)
Theorem phMod_is_next_ahead (N m t : Z) (o : Oscil) :
  pow2_cells N ->
  sample_of (phMod N m o)
  = sample_of (next N (set_phase (u32 (phase_fractional o + m * N)) o))
  /\ phMod N (m + t * 2 ^ 16) o = phMod N m o.
Proof.
  intros HN. split.
  - rewrite phMod_sample, next_sample_cell.
    cbn [set_phase phase_fractional phase_increment_fractional].
    rewrite table_entry_set_phase.
    f_equal. rewrite <- (cell_of_u32 N (u32 _ + _)), u32_add_l, cell_of_u32.
    f_equal. ring.
  - rewrite !phMod_eq_cell. do 2 f_equal.
    rewrite <- (cell_of_cycle N (_ + m * N) t HN). f_equal. ring.
Qed.

Lemma phMod_is_next_ahead_witness :
  pow2_cells 8 /\
  phMod 8 (-16384 + 1 * 2 ^ 16) ramp8 = phMod 8 (-16384) ramp8.
Proof.
  split; [exact pow2_cells_8 |].
  exact (proj2 (phMod_is_next_ahead 8 (-16384) 1 ramp8 pow2_cells_8)).
Defined.

Lemma land_u16_mask x m :
  0 <= m < 2 ^ 16 -> Z.land (u16 x) m = Z.land x m.
Proof.
  intros Hm. unfold u16.
  rewrite <- (Z.land_ones x 16) by lia.
  rewrite <- Z.land_assoc. f_equal.
  rewrite Z.land_comm, Z.land_ones by lia. now apply Z.mod_small.
Qed.

(** X4. [next()] is [incrementPhase()] followed by [atIndex] at the integer
    part of the phase, [phase >> 16] passed as an [unsigned int]: the same
    sample, the same object. *)
Theorem next_is_atIndex_of_phase (N : Z) (o : Oscil) :
  next N o =
  (incrementPhase ;;
   o' <- get ;;
   atIndex N (u16 (Z.shiftr (phase_fractional o') F_BITS))) o.
Proof.
  unfold bind at 1 2. rewrite incrementPhase_eq. unfold get.
  rewrite next_eq, atIndex_eq.
  cbn [set_phase phase_fractional].
  change (table_entry (mkOscil ?p ?i (table o))) with (table_entry o).
  rewrite land_u16_mask by (unfold u16; apply Z.mod_pos_bound; lia).
  reflexivity.
Qed.

(** ** The period of the stream *)

Lemma cell_period N (K j : nat) t p inc :
  pow2_cells N ->
  u32 (Z.of_nat K * inc) = u32 (t * (N * 2 ^ 16)) ->
  cell_of N (p + (Z.of_nat (j + K) + 1) * inc)
  = cell_of N (p + (Z.of_nat j + 1) * inc).
Proof.
  intros HN HK.
  rewrite <- (cell_of_cycle N (_ + (Z.of_nat j + 1) * _) t HN).
  rewrite <- cell_of_u32, <- (cell_of_u32 N (_ + t * _)). f_equal.
  rewrite <- (u32_add_r _ (t * _)), <- HK, u32_add_r. f_equal. lia.
Qed.

(** X5. Whenever [K] increments make whole table lengths modulo [2^32], the
    stream of [next()] has the period [K]: in any run, the sample of call
    [j + K] is the sample of call [j]. *)
Theorem stream_period (N t : Z) (K n : nat) (o : Oscil) :
  pow2_cells N -> bound_to N o ->
  u32 (Z.of_nat K * phase_increment_fractional o) = u32 (t * (N * 2 ^ 16)) ->
  exists cs,
    sample_of (next_n N n o) = Some cs
    /\ forall j, (j + K < n)%nat -> nth (j + K) cs 0 = nth j cs 0.
Proof.
  intros HN Hb HK.
  destruct (next_n_samples N n o HN Hb) as (cs & E & _ & Hnth).
  exists cs. split; [assumption |].
  intros j Hj.
  pose proof (Hnth j ltac:(lia)) as Hj0.
  pose proof (Hnth (j + K)%nat ltac:(lia)) as HjK.
  rewrite (cell_period N K j t) in HjK by assumption.
  congruence.
Qed.

Lemma stream_period_witness :
  (pow2_cells 8 /\ bound_to 8 ramp8 /\
   u32 (Z.of_nat 8 * phase_increment_fractional ramp8)
   = u32 (1 * (8 * 2 ^ 16))) /\
  exists cs,
    sample_of (next_n 8 20 ramp8) = Some cs
    /\ forall j, (j + 8 < 20)%nat -> nth (j + 8) cs 0 = nth j cs 0.
Proof.
  split; [exact (conj pow2_cells_8 (conj eq_refl eq_refl)) |].
  exact (stream_period 8 1 8 20 ramp8 pow2_cells_8 eq_refl eq_refl).
Defined.

Lemma table_entry_set_phase_increment i o :
  table_entry (set_phase_increment i o) = table_entry o.
Proof. reflexivity. Qed.

(** X6. When [f] divides [R] and [R] divides [f * N], [setFreq(f)] leaves
    the increment [q << 16] with [q = f * N / R] cells, and [R / f] steps
    of [q] cells are the [N] cells of the table, once.  After it, call [j]
    of [next()], counted from one, answers the entry [j * q] cells after
    the cell of the phase, modulo [N], and the stream repeats every
    [R / f] calls. *)
Theorem setFreq_stream_period (N R f : Z) (n : nat) (o : Oscil) :
  pow2_cells N -> bound_to N o ->
  0 < f < 2 ^ 16 -> 0 < R -> R mod f = 0 -> (f * N) mod R = 0 ->
  exists o1 cs,
    setFreq N R f o = Some (tt, o1)
    /\ phase_increment_fractional o1 = f * N / R * 2 ^ 16
    /\ R / f * (f * N / R) = N
    /\ sample_of (next_n N n o1) = Some cs
    /\ (forall j, (j < n)%nat ->
          table_entry o
            ((phase_fractional o / 2 ^ 16 + (Z.of_nat j + 1) * (f * N / R))
             mod N)
          = Some (nth j cs 0))
    /\ forall j, (j + Z.to_nat (R / f) < n)%nat ->
         nth (j + Z.to_nat (R / f)) cs 0 = nth j cs 0.
Proof.
  intros HN Hb Hf HR Hdiv Hexact.
  pose proof (pow2_cells_range _ HN) as HNr.
  pose proof (whole_cycle N R f ltac:(lia) HR Hdiv Hexact) as Hwhole.
  assert (1 <= R / f) as Hk.
  { pose proof (proj2 (Z.div_exact R f ltac:(lia)) Hdiv) as ER.
    assert (0 <= R / f) by (apply Z.div_pos; lia). nia. }
  assert (0 <= f * N / R) as Hq by (apply Z.div_pos; nia).
  assert (f * N / R <= N) as HqN by nia.
  assert (f * N / R < 2 ^ 16) as Hq16 by lia.
  rewrite setFreq_eq by assumption.
  set (o1 := set_phase_increment (shl32 (u32 (f * N) / R) 16) o).
  assert (phase_increment_fractional o1 = f * N / R * 2 ^ 16) as Einc.
  { unfold o1. cbn [set_phase_increment phase_increment_fractional].
    rewrite (u32_small (f * N)) by nia. apply shl32_exact; lia. }
  assert (u32 (Z.of_nat (Z.to_nat (R / f)) * phase_increment_fractional o1)
          = u32 (1 * (N * 2 ^ 16))) as HK.
  { rewrite Einc, Z2Nat.id, Z.mul_assoc, Hwhole by lia.
    f_equal. ring. }
  destruct (next_n_samples N n o1 HN Hb) as (cs & E & _ & Hnth).
  exists o1, cs. split; [reflexivity |]. split; [exact Einc |].
  split; [exact Hwhole |]. split; [assumption |]. split.
  - intros j Hj. rewrite <- (Hnth j Hj).
    unfold o1 at 1. rewrite table_entry_set_phase_increment. f_equal.
    rewrite Einc, cell_of_mod by assumption.
    change (phase_fractional o1) with (phase_fractional o).
    rewrite Z.mul_assoc, Z.div_add by lia. reflexivity.
  - intros j Hj.
    pose proof (Hnth j ltac:(lia)) as Hj0.
    pose proof (Hnth (j + Z.to_nat (R / f))%nat ltac:(lia)) as HjK.
    rewrite (cell_period N _ j 1) in HjK by assumption.
    congruence.
Qed.

Lemma setFreq_stream_period_witness :
  (pow2_cells 256 /\ bound_to 256 busy256 /\ 0 < 256 < 2 ^ 16 /\ 0 < 16384 /\
   16384 mod 256 = 0 /\ (256 * 256) mod 16384 = 0) /\
  exists o1 cs,
    setFreq 256 16384 256 busy256 = Some (tt, o1)
    /\ phase_increment_fractional o1 = 262144
    /\ sample_of (next_n 256 100 o1) = Some cs
    /\ forall j, (j + Z.to_nat (16384 / 256) < 100)%nat ->
         nth (j + Z.to_nat (16384 / 256)) cs 0 = nth j cs 0.
Proof.
  split.
  - split; [exact pow2_cells_256 |]. split; [reflexivity |].
    repeat split; lia || reflexivity.
  - destruct (setFreq_stream_period 256 16384 256 100 busy256
                pow2_cells_256 eq_refl)
      as (o1 & cs & E & Einc & _ & Ecs & _ & Hper);
      try (lia || reflexivity).
    exists o1, cs. repeat split; assumption.
Defined.

(** ** What the setters can and cannot set *)

Lemma shl32_16 q : shl32 q 16 = q mod 2 ^ 16 * 2 ^ 16.
Proof.
  unfold shl32, u32. rewrite Z.shiftl_mul_pow2 by lia.
  change (2 ^ 32) with (2 ^ 16 * 2 ^ 16). apply Zmult_mod_distr_r.
Qed.

Lemma shl32_8 q : shl32 q 8 = q mod 2 ^ 24 * 2 ^ 8.
Proof.
  unfold shl32, u32. rewrite Z.shiftl_mul_pow2 by lia.
  change (2 ^ 32) with (2 ^ 24 * 2 ^ 8). apply Zmult_mod_distr_r.
Qed.

Lemma u32_product f N :
  0 <= f < 2 ^ 16 -> 0 <= N < 2 ^ 16 -> u32 (f * N) = f * N.
Proof. intros Hf HN. apply u32_small. nia. Qed.

(** X7. [setFreq(f)] for an [unsigned int] frequency: the product [f * N]
    never overflows its [unsigned long], the quotient [f * N / R] is stored
    sixteen bits up, and only its low sixteen bits survive the shift.  The
    increment of the object it leaves is [((f * N / R) mod 2^16) << 16]:
    always a whole number of table cells, and the exact [(f * N / R) << 16]
    if and only if [f * N / R < 2^16].  [phaseIncFromFreq(f)] answers the
    same value. *)
Theorem setFreq_whole_cells (N R f : Z) (o : Oscil) :
  0 <= f < 2 ^ 16 -> 0 <= N < 2 ^ 16 -> 0 < R ->
  exists o',
    setFreq N R f o = Some (tt, o')
    /\ phase_increment_fractional o' = (f * N / R) mod 2 ^ 16 * 2 ^ 16
    /\ phaseIncFromFreq N R f = Some (phase_increment_fractional o')
    /\ phase_increment_fractional o' mod 2 ^ 16 = 0
    /\ (phase_increment_fractional o' = f * N / R * 2 ^ 16
        <-> f * N / R < 2 ^ 16).
Proof.
  intros Hf HN HR.
  assert (0 <= f * N / R) as Hq by (apply Z.div_pos; nia).
  exists (set_phase_increment (shl32 (u32 (f * N) / R) 16) o).
  split; [now apply setFreq_eq |].
  cbn [set_phase_increment phase_increment_fractional].
  split; [| split; [| split]].
  - rewrite u32_product, shl32_16 by assumption. reflexivity.
  - now apply phaseIncFromFreq_eq.
  - rewrite shl32_16. apply Z.mod_mul. lia.
  - rewrite u32_product, shl32_16 by assumption. split.
    + intros E.
      assert ((f * N / R) mod 2 ^ 16 = f * N / R) as E' by lia.
      pose proof (Z.mod_pos_bound (f * N / R) (2 ^ 16) ltac:(lia)). lia.
    + intros Hlt. rewrite Z.mod_small by lia. reflexivity.
Qed.

Lemma setFreq_whole_cells_witness :
  (0 <= 40000 < 2 ^ 16 /\ 0 <= 8192 < 2 ^ 16 /\ 0 < 64) /\
  exists o',
    setFreq 8192 64 40000 busy256 = Some (tt, o')
    /\ phase_increment_fractional o' = 536870912.
Proof.
  split; [lia |].
  destruct (setFreq_whole_cells 8192 64 40000 busy256)
    as (o' & E & Einc & _); try lia.
  exists o'. split; [exact E | exact Einc].
Defined.

(** X8. [setFreq_n8] wraps: for a table of [N = 2^k] cells, Q24.8
    frequencies that differ by a multiple of [2^32 / N] set the same
    increment, whatever the update rate is. *)
Theorem setFreq_n8_aliases (N R freq t : Z) (o : Oscil) :
  pow2_cells N ->
  setFreq_n8 N R (freq + t * (2 ^ 32 / N)) o = setFreq_n8 N R freq o.
Proof.
  intros HN. pose proof (pow2_cells_range _ HN) as Hr.
  assert (2 ^ 32 / N * N = 2 ^ 32) as Ewhole.
  { destruct HN as (k & Hk & ->).
    replace 32 with (32 - k + k) at 1 by lia.
    rewrite Z.pow_add_r, Z.div_mul by lia.
    rewrite <- Z.pow_add_r by lia. f_equal. lia. }
  unfold setFreq_n8.
  replace (u32 ((freq + t * (2 ^ 32 / N)) * N)) with (u32 (freq * N));
    [reflexivity |].
  unfold u32.
  replace ((freq + t * (2 ^ 32 / N)) * N)
    with (freq * N + t * (2 ^ 32 / N * N)) by ring.
  rewrite Ewhole, Z.mod_add by lia. reflexivity.
Qed.

Lemma setFreq_n8_aliases_witness :
  pow2_cells 256 /\
  setFreq_n8 256 16384 (384 + 1 * (2 ^ 32 / 256)) rest256
  = setFreq_n8 256 16384 384 rest256.
Proof.
  split; [exact pow2_cells_256 |].
  exact (setFreq_n8_aliases 256 16384 384 1 rest256 pow2_cells_256).
Defined.

(** X9. In the range where nothing overflows, [setFreq_n8(freq)] leaves an
    increment that is the exact [freq * N * 2^8 / R] rounded down to a
    multiple of [2^8]: it is at most the exact value and less than [2^8]
    below it. *)
Theorem setFreq_n8_accuracy (N R freq : Z) (o : Oscil) :
  0 <= freq -> 0 <= N -> 0 < R ->
  freq * N < 2 ^ 32 -> freq * N / R < 2 ^ 24 ->
  exists o',
    setFreq_n8 N R freq o = Some (tt, o')
    /\ phase_increment_fractional o' = freq * N / R * 2 ^ 8
    /\ phase_increment_fractional o' mod 2 ^ 8 = 0
    /\ R * phase_increment_fractional o' <= freq * N * 2 ^ 8
         < R * (phase_increment_fractional o' + 2 ^ 8).
Proof.
  intros Hf HN HR Hprod Hq.
  assert (0 <= freq * N) as Hx by nia.
  assert (0 <= freq * N / R) as Hq0 by (apply Z.div_pos; lia).
  pose proof (Z.mul_div_le (freq * N) R HR) as Hlo.
  pose proof (Z.mul_succ_div_gt (freq * N) R HR) as Hhi.
  exists (set_phase_increment (shl32 (u32 (freq * N) / R) 8) o).
  split; [now apply setFreq_n8_eq |].
  cbn [set_phase_increment phase_increment_fractional].
  rewrite (u32_small (freq * N)), shl32_8, Z.mod_small by lia.
  split; [reflexivity |]. split.
  - apply Z.mod_mul. lia.
  - unfold Z.succ in Hhi. nia.
Qed.

Lemma setFreq_n8_accuracy_witness :
  (0 <= 440 /\ 0 <= 256 /\ 0 < 16384 /\ 440 * 256 < 2 ^ 32 /\
   440 * 256 / 16384 < 2 ^ 24) /\
  exists o',
    setFreq_n8 256 16384 440 busy256 = Some (tt, o')
    /\ phase_increment_fractional o' = 1536
    /\ 16384 * phase_increment_fractional o' <= 440 * 256 * 2 ^ 8
         < 16384 * (phase_increment_fractional o' + 2 ^ 8).
Proof.
  split; [repeat split; lia || reflexivity |].
  destruct (setFreq_n8_accuracy 256 16384 440 busy256)
    as (o' & E & Einc & _ & Hacc); try (lia || reflexivity).
  exists o'. split; [exact E |]. split; [exact Einc | exact Hacc].
Defined.



(** ** A stalled oscillator *)

Lemma set_phase_same o : set_phase (phase_fractional o) o = o.
Proof. now destruct o. Qed.

Lemma next_n_frozen N (n : nat) o c :
  0 <= phase_fractional o < 2 ^ 32 ->
  phase_increment_fractional o = 0 ->
  table_entry o (cell_of N (phase_fractional o)) = Some c ->
  next_n N n o = Some (repeat c n, o).
Proof.
  intros Hp Hinc Hc.
  assert (next N o = Some (c, o)) as Enext.
  { rewrite next_eq. unfold advanced. rewrite Hinc, Z.add_0_r.
    rewrite u32_small by assumption.
    change (Z.land (Z.shiftr ?x F_BITS) (u16 (N - 1))) with (cell_of N x).
    rewrite Hc. cbn. now rewrite set_phase_same. }
  induction n as [| n IH]; [reflexivity |].
  cbn [next_n repeat]. unfold bind at 1. rewrite Enext.
  unfold bind, ret. now rewrite IH.
Qed.

(** X11. A zero increment freezes the oscillator: every call of [next()]
    answers the sample of the cell the phase stands on and leaves the object
    as it is.  This is what [setFreq(f)] gives for every frequency with
    [f * N < R]: after it, a run of [next()] is one sample repeated. *)
Theorem low_frequency_freezes (N R f : Z) (n : nat) (o : Oscil) :
  pow2_cells N -> bound_to N o -> 0 <= phase_fractional o < 2 ^ 32 ->
  exists c,
    table_entry o (cell_of N (phase_fractional o)) = Some c
    /\ (phase_increment_fractional o = 0 ->
        next_n N n o = Some (repeat c n, o))
    /\ (0 <= f < 2 ^ 16 -> 0 < R -> f * N < R ->
        (setFreq N R f ;; next_n N n) o
        = Some (repeat c n, set_phase_increment 0 o)).
Proof.
  intros HN Hb Hp.
  destruct (table_entry_in_table N o (cell_of N (phase_fractional o)) Hb)
    as [c Ec]; [now apply mask_in_table |].
  exists c. split; [assumption |]. split.
  - intros Hinc. now apply next_n_frozen.
  - intros Hf HR Hlow. pose proof (pow2_cells_range _ HN) as HNr.
    unfold bind. rewrite setFreq_eq by assumption.
    rewrite u32_product by lia.
    rewrite Z.div_small by nia.
    change (shl32 0 16) with 0.
    now apply next_n_frozen.
Qed.

Lemma low_frequency_freezes_witness :
  (pow2_cells 256 /\ bound_to 256 rest256 /\
   0 <= phase_fractional rest256 < 2 ^ 32) /\
  (0 <= 63 < 2 ^ 16 /\ 0 < 16384 /\ 63 * 256 < 16384) /\
  exists c,
    (setFreq 256 16384 63 ;; next_n 256 5) rest256
    = Some (repeat c 5, set_phase_increment 0 rest256).
Proof.
  split; [split; [exact pow2_cells_256 |];
          split; [exact rest256_bound | cbn; lia] |].
  split; [lia |].
  destruct (low_frequency_freezes 256 16384 63 5 rest256
              pow2_cells_256 rest256_bound) as (c & _ & _ & H);
    [cbn; lia |].
  exists c. apply H; lia.
Defined.

(** X12. After [setFreq(f)] the oscillator steps whole cells: whatever [f]
    is, no run of [next()] changes the fraction of the phase, its low
    sixteen bits. *)
Theorem setFreq_keeps_phase_fraction (N R f : Z) (n : nat) (o : Oscil) :
  pow2_cells N -> bound_to N o -> in_range o -> 0 < R ->
  exists p,
    phase_after_setFreq N R f n o = Some p
    /\ p mod 2 ^ 16 = phase_fractional o mod 2 ^ 16.
Proof.
  intros HN Hb Hr HR.
  unfold phase_after_setFreq, bind at 1. rewrite setFreq_eq by assumption.
  rewrite next_n_phase; [| assumption | exact Hb | ].
  - eexists. split; [reflexivity |].
    cbn [set_phase_increment phase_fractional phase_increment_fractional].
    rewrite shl32_16. unfold u32.
    rewrite Z.mod_mod_divide by (exists (2 ^ 16); reflexivity).
    rewrite Z.mul_assoc, Z.mod_add by lia. reflexivity.
  - split; [apply Hr | apply u32_range].
Qed.

Lemma setFreq_keeps_phase_fraction_witness :
  (pow2_cells 8 /\ bound_to 8 (set_phase 12345 ramp8) /\
   in_range (set_phase 12345 ramp8) /\ 0 < 64) /\
  exists p,
    phase_after_setFreq 8 64 100 7 (set_phase 12345 ramp8) = Some p
    /\ p mod 2 ^ 16 = 12345.
Proof.
  assert (in_range (set_phase 12345 ramp8)) as Hr by (repeat split; cbn; lia).
  split; [split; [exact pow2_cells_8 |];
          split; [reflexivity |]; split; [exact Hr | lia] |].
  apply (setFreq_keeps_phase_fraction 8 64 100 7 (set_phase 12345 ramp8)
           pow2_cells_8 eq_refl Hr). lia.
Defined.

(** X13. [phaseIncFromFreq] keeps the order of the frequencies as long as
    the shift does not overflow: for [a <= b] with [b * N / R < 2^16], the
    increment of [a] is at most the increment of [b]. *)
Theorem phaseIncFromFreq_monotone (N R a b : Z) :
  0 <= N < 2 ^ 16 -> 0 < R -> 0 <= a -> a <= b -> b < 2 ^ 16 ->
  b * N / R < 2 ^ 16 ->
  exists ia ib,
    phaseIncFromFreq N R a = Some ia
    /\ phaseIncFromFreq N R b = Some ib
    /\ ia <= ib.
Proof.
  intros HN HR Ha Hab Hb Hq.
  assert (a * N / R <= b * N / R) as Hmono
    by (apply Z.div_le_mono; [assumption | nia]).
  assert (0 <= a * N / R) as Hqa by (apply Z.div_pos; nia).
  exists (a * N / R * 2 ^ 16), (b * N / R * 2 ^ 16).
  split; [| split].
  - rewrite phaseIncFromFreq_eq, u32_product, shl32_16 by lia.
    rewrite Z.mod_small by lia. reflexivity.
  - rewrite phaseIncFromFreq_eq, u32_product, shl32_16 by lia.
    rewrite Z.mod_small by lia. reflexivity.
  - lia.
Qed.

Lemma phaseIncFromFreq_monotone_witness :
  (0 <= 256 < 2 ^ 16 /\ 0 < 16384 /\ 0 <= 220 /\ 220 <= 440 /\
   440 < 2 ^ 16 /\ 440 * 256 / 16384 < 2 ^ 16) /\
  exists ia ib,
    phaseIncFromFreq 256 16384 220 = Some ia
    /\ phaseIncFromFreq 256 16384 440 = Some ib
    /\ ia <= ib.
Proof.
  split; [repeat split; lia || reflexivity |].
  apply (phaseIncFromFreq_monotone 256 16384 220 440); lia || reflexivity.
Defined.

(** ** Any run of calls *)

Lemma phMod_total N m o :
  pow2_cells N -> bound_to N o ->
  exists c, phMod N m o = Some (c, set_phase (advanced o) o).
Proof.
  intros HN Hb. rewrite phMod_eq.
  destruct (table_entry_in_table N o
              (Z.land (Z.shiftr (u32 (advanced o + u32 (s32 (m * N)))) F_BITS)
                      (u16 (N - 1))) Hb)
    as [c E]; [now apply mask_in_table |].
  exists c. now rewrite E.
Qed.

Lemma atIndex_total N i o :
  pow2_cells N -> bound_to N o -> exists c, atIndex N i o = Some (c, o).
Proof.
  intros HN Hb. rewrite atIndex_eq.
  destruct (table_entry_in_table N o (Z.land i (u16 (N - 1))) Hb)
    as [c E]; [now apply mask_in_table |].
  exists c. now rewrite E.
Qed.

(** One call: it returns, and what it leaves is the object with a new phase
    (the old one plus the increment) when it advances, with a new
    increment when it sets, and the object itself otherwise. *)
Lemma do_call_effect N R c o :
  pow2_cells N -> bound_to N o -> 0 < R ->
  exists a o',
    do_call N R c o = Some (a, o')
    /\ table o' = table o
    /\ phase_fractional o' =
       (if advances c then advanced o else phase_fractional o)
    /\ (sets c = false ->
        phase_increment_fractional o' = phase_increment_fractional o)
    /\ (call_in_range c ->
        0 <= phase_increment_fractional o < 2 ^ 32 ->
        0 <= phase_increment_fractional o' < 2 ^ 32).
Proof.
  intros HN Hb HR. destruct c as [| m | i | f | f | inc]; cbn [do_call].
  - destruct (next_total N o HN Hb) as [c E].
    unfold bind, ret. rewrite E. do 2 eexists. split; [reflexivity |].
    cbn. auto.
  - destruct (phMod_total N m o HN Hb) as [c E].
    unfold bind, ret. rewrite E. do 2 eexists. split; [reflexivity |].
    cbn. auto.
  - destruct (atIndex_total N i o HN Hb) as [c E].
    unfold bind, ret. rewrite E. do 2 eexists. split; [reflexivity |].
    cbn. auto.
  - unfold bind at 1. rewrite setFreq_n8_eq by assumption.
    do 2 eexists. split; [reflexivity |]. cbn.
    repeat split; try discriminate; intros; apply u32_range.
  - unfold bind at 1. rewrite setFreq_eq by assumption.
    do 2 eexists. split; [reflexivity |]. cbn.
    repeat split; try discriminate; intros; apply u32_range.
  - do 2 eexists. split; [reflexivity |]. cbn.
    repeat split; try discriminate; intros; lia.
Qed.

(** X14. Whatever calls a sketch makes, in whatever order, on an object
    bound to a table whose length is a power of two, with a positive update
    rate: every call returns, there is one answer per call, the table is
    never changed, and the phase and the increment stay values of their
    32-bit type. *)
Theorem run_keeps_invariants (N R : Z) (cs : list call) (o : Oscil) :
  pow2_cells N -> bound_to N o -> in_range o -> 0 < R ->
  Forall call_in_range cs ->
  exists out o',
    run N R cs o = Some (out, o')
    /\ length out = length cs
    /\ table o' = table o
    /\ bound_to N o'
    /\ in_range o'.
Proof.
  intros HN Hb Hr HR Hcs. revert o Hb Hr.
  induction Hcs as [| c cs Hc Hcs IH]; intros o Hb Hr.
  - exists [], o. repeat split; assumption || apply Hr.
  - destruct (do_call_effect N R c o HN Hb HR)
      as (a & o1 & E & Et & Ep & _ & Ei).
    assert (bound_to N o1) as Hb1 by (unfold bound_to; now rewrite Et).
    assert (in_range o1) as Hr1.
    { split; [| apply Ei; [assumption | apply Hr]].
      rewrite Ep. destruct (advances c); [apply u32_range | apply Hr]. }
    destruct (IH o1 Hb1 Hr1) as (out & o' & Erun & Hlen & Et' & Hb' & Hr').
    exists (a :: out), o'. split; [| split; [| split; [| split]]].
    + cbn [run]. unfold bind at 1. rewrite E.
      unfold bind, ret. now rewrite Erun.
    + cbn. now rewrite Hlen.
    + now rewrite Et'.
    + assumption.
    + assumption.
Qed.

Lemma run_keeps_invariants_witness :
  (pow2_cells 8 /\ bound_to 8 ramp8 /\ in_range ramp8 /\ 0 < 64 /\
   Forall call_in_range [SetFreq 16; Next; PhMod (-3); SetPhaseInc 7; Next])
  /\ exists out o',
       run 8 64 [SetFreq 16; Next; PhMod (-3); SetPhaseInc 7; Next] ramp8
       = Some (out, o')
       /\ length out = 5%nat /\ table o' = table ramp8.
Proof.
  assert (in_range ramp8) as Hr by (repeat split; cbn; lia).
  assert (Forall call_in_range
            [SetFreq 16; Next; PhMod (-3); SetPhaseInc 7; Next]) as Hcs
    by (repeat constructor; cbn; lia).
  split; [split; [exact pow2_cells_8 |]; split; [reflexivity |];
          split; [exact Hr |]; split; [lia | exact Hcs] |].
  destruct (run_keeps_invariants 8 64
              [SetFreq 16; Next; PhMod (-3); SetPhaseInc 7; Next] ramp8
              pow2_cells_8 eq_refl Hr ltac:(lia) Hcs)
    as (out & o' & E & Hlen & Et & _).
  exists out, o'. repeat split; assumption.
Defined.

(** X15. What a run never does.  Calls that set the increment and
    [atIndex] never move the phase: a frequency change keeps the position
    in the wave.  Calls that read never change the increment, and in a run
    without a setter the phase moves by the increment once for each
    [next()] and each [phMod()], modulo [2^32], however they are mixed with
    [atIndex]. *)
Theorem run_frame (N R : Z) (cs : list call) (o : Oscil)
        (out : list (option Z)) (o' : Oscil) :
  pow2_cells N -> bound_to N o -> 0 < R ->
  run N R cs o = Some (out, o') ->
  (forallb (fun c => negb (advances c)) cs = true ->
   phase_fractional o' = phase_fractional o)
  /\ (forallb (fun c => negb (sets c)) cs = true ->
      phase_increment_fractional o' = phase_increment_fractional o
      /\ u32 (phase_fractional o') =
         u32 (phase_fractional o
              + Z.of_nat (length (filter advances cs))
                * phase_increment_fractional o)).
Proof.
  intros HN Hb HR. revert o out o' Hb.
  induction cs as [| c cs IH]; intros o out o' Hb Erun.
  - cbn in Erun. injection Erun as <- <-. cbn.
    repeat split. now rewrite Z.add_0_r.
  - destruct (do_call_effect N R c o HN Hb HR)
      as (a & o1 & E & Et & Ep & Ei & _).
    cbn [run] in Erun. unfold bind at 1 in Erun. rewrite E in Erun.
    unfold bind, ret in Erun.
    destruct (run N R cs o1) as [[out1 o2] |] eqn:Erun1; [| discriminate].
    injection Erun as <- <-.
    assert (bound_to N o1) as Hb1 by (unfold bound_to; now rewrite Et).
    destruct (IH o1 out1 o2 Hb1 Erun1) as [IHp IHi].
    cbn [forallb filter]. rewrite !andb_true_iff, !negb_true_iff. split.
    + intros [Hc Hcs]. rewrite IHp, Ep, Hc by assumption. reflexivity.
    + intros [Hc Hcs]. destruct (IHi Hcs) as [Einc Ephase].
      rewrite Einc, Ei by assumption. split; [reflexivity |].
      rewrite Ephase, Ep, Ei by assumption.
      destruct (advances c).
      * cbn [length]. unfold advanced. rewrite u32_add_l. f_equal. lia.
      * reflexivity.
Qed.

Lemma run_frame_witness :
  (pow2_cells 8 /\ bound_to 8 ramp8 /\ 0 < 64 /\
   run 8 64 [Next; AtIndex 5; PhMod 9; Next] ramp8
   = Some ([Some 1; Some 5; Some 2; Some 3], set_phase 196608 ramp8)) /\
  u32 (phase_fractional (set_phase 196608 ramp8))
  = u32 (0 + 3 * 65536).
Proof.
  split; [split; [exact pow2_cells_8 |]; split; [reflexivity |];
          split; [lia | reflexivity] |].
  destruct (run_frame 8 64 [Next; AtIndex 5; PhMod 9; Next] ramp8
              [Some 1; Some 5; Some 2; Some 3] (set_phase 196608 ramp8)
              pow2_cells_8 eq_refl ltac:(lia) eq_refl) as [_ H].
  exact (proj2 (H eq_refl)).
Defined.

(** ** Samples are chars *)

Lemma to_char_range b : 0 <= b < 256 -> -128 <= to_char b <= 127.
Proof.
  intros Hb. unfold to_char. destruct (Z.ltb_spec b 128); lia.
Qed.

Lemma to_char_of_byte c : -128 <= c <= 127 -> to_char (c mod 256) = c.
Proof.
  intros Hc. unfold to_char.
  destruct (Z_lt_le_dec c 0) as [Hneg | Hpos].
  - replace (c mod 256) with (c + 256)
      by (apply (Z.mod_unique c 256 (-1)); lia).
    destruct (Z.ltb_spec (c + 256) 128); lia.
  - rewrite Z.mod_small by lia.
    destruct (Z.ltb_spec c 128); lia.
Qed.

Lemma table_entry_char o i c :
  table_of_bytes o -> table_entry o i = Some c -> -128 <= c <= 127.
Proof.
  unfold table_of_bytes, table_entry, pgm_read_byte_near. intros Hbytes E.
  destruct (i <? 0); [discriminate |].
  destruct (nth_error (table o) (Z.to_nat i)) as [b |] eqn:Eb;
    [| discriminate].
  cbn in E. injection E as <-.
  apply to_char_range.
  apply nth_error_In in Eb.
  rewrite Forall_forall in Hbytes. now apply Hbytes.
Qed.

(** X16. When the table holds bytes, every sample that [next()],
    [phMod(m)] or [atIndex(i)] answers is a signed 8-bit value, between
    [-128] and [127]. *)
Theorem samples_are_chars (N m i : Z) (o o' : Oscil) (c : Z) :
  table_of_bytes o ->
  next N o = Some (c, o') \/ phMod N m o = Some (c, o')
  \/ atIndex N i o = Some (c, o') ->
  -128 <= c <= 127.
Proof.
  intros Hbytes [E | [E | E]].
  - rewrite next_eq in E.
    destruct (table_entry o _) as [c' |] eqn:Ec; [| discriminate].
    cbn in E. injection E as <- _. now apply (table_entry_char o _ _ Hbytes Ec).
  - rewrite phMod_eq in E.
    destruct (table_entry o _) as [c' |] eqn:Ec; [| discriminate].
    cbn in E. injection E as <- _. now apply (table_entry_char o _ _ Hbytes Ec).
  - rewrite atIndex_eq in E.
    destruct (table_entry o _) as [c' |] eqn:Ec; [| discriminate].
    cbn in E. injection E as <- _. now apply (table_entry_char o _ _ Hbytes Ec).
Qed.

Lemma samples_are_chars_witness :
  (table_of_bytes (mkOscil 0 65536 [10; 20; 30; 40; 50; 60; 70; 200]) /\
   phMod 8 (-16384) (mkOscil 0 65536 [10; 20; 30; 40; 50; 60; 70; 200])
   = Some (-56, mkOscil 65536 65536 [10; 20; 30; 40; 50; 60; 70; 200])) /\
  -128 <= -56 <= 127.
Proof.
  assert (table_of_bytes (mkOscil 0 65536 [10; 20; 30; 40; 50; 60; 70; 200]))
    as Hbytes by (repeat constructor; lia).
  split; [split; [exact Hbytes | reflexivity] |].
  apply (samples_are_chars 8 (-16384) 0
           (mkOscil 0 65536 [10; 20; 30; 40; 50; 60; 70; 200])
           (mkOscil 65536 65536 [10; 20; 30; 40; 50; 60; 70; 200]) (-56)
           Hbytes).
  right. left. reflexivity.
Defined.

(** X17. A table written from signed samples reads back: when the table
    holds the bytes of the chars [cs], its length a power of two,
    [atIndex(i)] answers the [i]-th of them for every [i] inside the table,
    leaves the object as it is, and [atIndex(N)] answers the first one: the
    index rolls back around to zero. *)
Theorem atIndex_reads_back (N i : Z) (cs : list Z) (o : Oscil) :
  pow2_cells N ->
  Z.of_nat (length cs) = N ->
  Forall (fun c => -128 <= c <= 127) cs ->
  table o = map (fun c => c mod 256) cs ->
  0 <= i < N ->
  atIndex N i o = Some (nth (Z.to_nat i) cs 0, o)
  /\ atIndex N N o = Some (nth 0 cs 0, o).
Proof.
  intros HN Hlen Hcs Htab Hi.
  pose proof (pow2_cells_range _ HN) as HNr.
  assert (forall j, 0 <= j < N ->
            table_entry o j = Some (nth (Z.to_nat j) cs 0)) as Hread.
  { intros j Hj. unfold table_entry, pgm_read_byte_near.
    destruct (Z.ltb_spec j 0) as [Hneg | _]; [lia |].
    rewrite Htab, nth_error_map.
    rewrite (nth_error_nth' cs 0) by lia. cbn. f_equal.
    apply to_char_of_byte.
    rewrite Forall_forall in Hcs. apply Hcs, nth_In. lia. }
  split.
  - rewrite atIndex_eq, mask_is_mod, Z.mod_small by assumption.
    now rewrite Hread.
  - rewrite atIndex_eq, mask_is_mod, Z.mod_same by (assumption || lia).
    rewrite Hread by lia. reflexivity.
Qed.

Lemma atIndex_reads_back_witness :
  (pow2_cells 8 /\
   Z.of_nat (length [0; 90; 127; 90; 0; -90; -128; -90]) = 8 /\
   Forall (fun c => -128 <= c <= 127) [0; 90; 127; 90; 0; -90; -128; -90] /\
   table (mkOscil 0 0 [0; 90; 127; 90; 0; 166; 128; 166])
   = map (fun c => c mod 256) [0; 90; 127; 90; 0; -90; -128; -90] /\
   0 <= 6 < 8) /\
  atIndex 8 6 (mkOscil 0 0 [0; 90; 127; 90; 0; 166; 128; 166])
  = Some (-128, mkOscil 0 0 [0; 90; 127; 90; 0; 166; 128; 166]).
Proof.
  assert (Forall (fun c => -128 <= c <= 127)
            [0; 90; 127; 90; 0; -90; -128; -90]) as Hcs
    by (repeat constructor; lia).
  split; [split; [exact pow2_cells_8 |]; split; [reflexivity |];
          split; [exact Hcs |]; split; [reflexivity | lia] |].
  exact (proj1 (atIndex_reads_back 8 6 [0; 90; 127; 90; 0; -90; -128; -90]
                  (mkOscil 0 0 [0; 90; 127; 90; 0; 166; 128; 166])
                  pow2_cells_8 eq_refl Hcs eq_refl ltac:(lia))).
Defined.

(** ** The signed product of phMod() *)





(** ** Why the table length is a power of two *)

(** A number below [2^n] and its complement to [2^n - 1] share no bit. *)
Lemma land_complement n M :
  0 <= n -> 0 <= M < 2 ^ n -> Z.land (2 ^ n - 1 - M) M = 0.
Proof.
  intros Hn HM. apply Z.bits_inj'. intros j Hj.
  rewrite Z.land_spec, Z.bits_0.
  destruct (Z.ltb_spec j n) as [Hlt | Hge].
  - replace (2 ^ n - 1 - M) with (Z.lnot M mod 2 ^ n).
    + rewrite Z.mod_pow2_bits_low, Z.lnot_spec by lia.
      now destruct (Z.testbit M j).
    + symmetry. apply (Z.mod_unique _ _ (-1)); [lia |].
      unfold Z.lnot. lia.
  - replace (Z.testbit M j) with false; [apply andb_false_r |].
    symmetry. rewrite <- (Z.mod_small M (2 ^ n)) by assumption.
    apply Z.mod_pow2_bits_high. lia.
Qed.

Lemma one_hot_length N i : 0 <= N -> Z.of_nat (length (one_hot N i)) = N.
Proof.
  intros HN. unfold one_hot. rewrite length_map, length_seq. lia.
Qed.

Lemma one_hot_read N i j :
  0 <= j < N ->
  pgm_read_byte_near (one_hot N i) j = Some (if j =? i then 1 else 0).
Proof.
  intros Hj. unfold pgm_read_byte_near, one_hot.
  destruct (Z.ltb_spec j 0) as [Hneg | _]; [lia |].
  rewrite nth_error_map, nth_error_seq.
  destruct (Nat.ltb_spec (Z.to_nat j) (Z.to_nat N)) as [_ | Hge]; [| lia].
  cbn. now rewrite Z2Nat.id by lia.
Qed.

(** A length that is not a power of two has a cell that the mask hides. *)
Lemma hidden_cell N :
  1 < N < 2 ^ 16 -> ~ pow2_cells N ->
  exists i, 0 < i < N /\ Z.land i (N - 1) = 0.
Proof.
  intros HN Hnot.
  pose proof (Z.log2_spec (N - 1) ltac:(lia)) as [Hlo Hhi].
  pose proof (Z.log2_nonneg (N - 1)) as Hl.
  set (n := Z.succ (Z.log2 (N - 1))) in *.
  assert (2 ^ n = 2 * 2 ^ Z.log2 (N - 1)) as En
    by (unfold n; rewrite Z.pow_succ_r by assumption; reflexivity).
  assert (N <> 2 ^ n) as Hne.
  { intros E. apply Hnot. exists n. split; [| assumption].
    split; [lia |]. apply (Z.pow_lt_mono_r_iff 2); lia. }
  exists (2 ^ n - 1 - (N - 1)). split; [lia |].
  apply land_complement; lia.
Qed.

(** X19. The mask needs the power of two.  For a table length [N] that an
    [unsigned int] holds, [atIndex(i)] answers the entry at [i] for every
    table of [N] bytes and every [i] inside it if and only if [N] is a
    power of two; for any other length some cell of the table can never be
    read at its own index. *)
Theorem atIndex_needs_power_of_two (N : Z) :
  0 < N < 2 ^ 16 ->
  (pow2_cells N <->
   forall i o, 0 <= i < N -> bound_to N o ->
     sample_of (atIndex N i o) = table_entry o i).
Proof.
  intros HN. split.
  - intros Hpow i o Hi _.
    rewrite atIndex_eq, mask_is_mod, Z.mod_small by assumption.
    unfold sample_of. now destruct (table_entry o i).
  - intros Hall.
    destruct (pow2_cellsb N) eqn:Eb; [now apply pow2_cellsb_complete |].
    assert (~ pow2_cells N) as Hnot
      by (intros Hpow; apply pow2_cellsb_sound in Hpow; congruence).
    assert (1 < N) as H1.
    { destruct (Z.eq_dec N 1) as [-> | Hne]; [discriminate Eb | lia]. }
    destruct (hidden_cell N ltac:(lia) Hnot) as (i & Hi & Hland).
    exfalso.
    specialize (Hall i (mkOscil 0 0 (one_hot N i)) ltac:(lia)
                  (one_hot_length N i ltac:(lia))).
    rewrite atIndex_eq, u16_pred, Hland in Hall by lia.
    unfold sample_of, table_entry in Hall. cbn [table] in Hall.
    rewrite !one_hot_read in Hall by lia.
    rewrite Z.eqb_refl in Hall.
    destruct (Z.eqb_spec 0 i) as [E0 | _]; [lia |].
    discriminate Hall.
Qed.

Lemma atIndex_needs_power_of_two_witness :
  0 < 6 < 2 ^ 16 /\
  ~ (forall i o, 0 <= i < 6 -> bound_to 6 o ->
       sample_of (atIndex 6 i o) = table_entry o i).
Proof.
  split; [lia |].
  intros Hall.
  apply (atIndex_needs_power_of_two 6 ltac:(lia)) in Hall.
  apply pow2_cellsb_sound in Hall. discriminate Hall.
Defined.
